(** * BigInt base (src/math/bigint/bigint.cpp)

    A shallow embedding of Botan's [BigInt] storage, sign, bit/byte accessors,
    binary codec, comparison and string construction, with the properties of
    its specification proved (or refuted) on the embedding.

    Conventions.
    - A limb ([word]) is a [Z] in [0, 2^W); every store into a limb writes the
      C++ truncation ([wtrunc]) out.  The build-time limb width is one of
      8, 16, 32 or 64 bits: [word_size].
    - A byte is a [Z] in [0, 256).
    - [size_t] quantities are [nat]: limb, byte and bit counts of a value
      are taken to fit [size_t], as they do for any value that fits in memory
      on a 64-bit build, so index arithmetic is written without reduction.
      The one sum of a capacity and a caller-chosen count, in [grow_reg], is
      written with its wrap-around ([size_t_add]).
    - [reg] is the limb vector, least significant limb first; [resize n 0]
      is the vector's resize (keeps the first limbs, pads with zero limbs). *)

From Stdlib Require Import ZArith Lia List String Ascii Bool.
From stdpp Require Import base tactics option list.

Local Open Scope Z_scope.

(** ** Machine parameters *)

Inductive word_size : Set := W8 | W16 | W32 | W64.

(** [sizeof(word)]. *)
Definition WORD_BYTES (ws : word_size) : nat :=
  match ws with W8 => 1 | W16 => 2 | W32 => 4 | W64 => 8 end%nat.

(** Modelled from the spec: the fixed machine width [W] of a limb
    ([MP_WORD_BITS]; mp_types.h is not among the sources). *)
Definition MP_WORD_BITS (ws : word_size) : nat := (8 * WORD_BYTES ws)%nat.

(** Modelled from the spec: the all-ones limb ([MP_WORD_MASK]) and the limb
    with only its top bit set ([MP_WORD_TOP_BIT]); mp_types.h is not among
    the sources. *)
Definition MP_WORD_MASK (ws : word_size) : Z := Z.ones (Z.of_nat (MP_WORD_BITS ws)).
Definition MP_WORD_TOP_BIT (ws : word_size) : Z :=
  Z.shiftl 1 (Z.of_nat (MP_WORD_BITS ws) - 1).

(** Conversion to [word], [byte], [u32bit] and [u64bit]: reduction modulo the
    width. *)
Definition wtrunc (ws : word_size) (z : Z) : Z := z mod 2 ^ Z.of_nat (MP_WORD_BITS ws).
Definition to_byte (z : Z) : Z := z mod 2 ^ 8.
Definition to_u32 (z : Z) : Z := z mod 2 ^ 32.
Definition to_u64 (z : Z) : Z := z mod 2 ^ 64.

(** [int] is 32 bits wide on every platform the library builds for.  Signed
    arithmetic that leaves the range, and a shift by the width or more, are
    undefined in C++: they have no value here. *)
Definition INT_BITS : Z := 32.

Definition int_shl (a : Z) (n : nat) : option Z :=
  if a <? 0 then None
  else if INT_BITS <=? Z.of_nat n then None
  else
    let r := a * 2 ^ Z.of_nat n in
    if r <? 2 ^ (INT_BITS - 1) then Some r
    else if r <? 2 ^ INT_BITS then Some (r - 2 ^ INT_BITS)
    else None.

Definition int_sub (a b : Z) : option Z :=
  let r := a - b in
  if (- 2 ^ (INT_BITS - 1) <=? r) && (r <? 2 ^ (INT_BITS - 1)) then Some r else None.

(** [size_t] is 64 bits wide on the builds modelled; the sum of two [size_t]
    wraps. *)
Definition SIZE_T_BITS : Z := 64.

Definition size_t_add (a b : nat) : nat :=
  Z.to_nat ((Z.of_nat a + Z.of_nat b) mod 2 ^ SIZE_T_BITS).

(** ** Data model *)

Inductive Sign : Set := Negative | Positive.

Inductive Base : Set := Binary | Octal | Decimal | Hexadecimal.

Record BigInt : Set := mkBigInt { reg : list Z; signedness : Sign }.

Definition set_reg (x : BigInt) (r : list Z) : BigInt :=
  {| reg := r; signedness := signedness x |}.

(** What a call yields: a value, the [Invalid_Argument] exception, or nothing
    the language defines. *)
Inductive outcome (A : Type) : Type :=
  | Value (a : A)
  | Invalid_Argument
  | Undefined.
Arguments Value {A} a.
Arguments Invalid_Argument {A}.
Arguments Undefined {A}.

(** Modelled from the spec: [round_up(n, align_to)], "rounding the target up
    to the nearest multiple of the growth block size" (rounding.h is not
    among the sources). *)
Definition round_up (n align_to : nat) : nat :=
  if (align_to =? 0)%nat then n
  else if (n mod align_to =? 0)%nat then n
  else (n + (align_to - n mod align_to))%nat.

(** Limb [i] of a vector; only read inside the vector. *)
Definition limb (l : list Z) (i : nat) : Z := nth i l 0.

(** A byte sequence read most significant byte first. *)
Definition be_combine (bs : list Z) : Z := foldl (fun a b => a * 256 + b) 0 bs.

Definition is_byte (b : Z) : Prop := 0 <= b < 256.

Section Core.

Context (ws : word_size).

Local Abbreviation W := (MP_WORD_BITS ws).
Local Abbreviation WB := (WORD_BYTES ws).

(** *** Accessors declared in bigint.h *)

(** Modelled from the spec: [size()], the capacity (allocated limb count);
    bigint.h is not among the sources. *)
Definition size (x : BigInt) : nat := length (reg x).

(** Modelled from the spec: [sig_words()], "the count of limbs after trimming
    trailing (most-significant) zero limbs", recomputed on demand; bigint.h
    is not among the sources. *)
Fixpoint sig_words_scan (l : list Z) (sig : nat) : nat :=
  match sig with
  | O => O
  | S k => if limb l k =? 0 then sig_words_scan l k else sig
  end.

Definition sig_words (x : BigInt) : nat := sig_words_scan (reg x) (size x).

(** Modelled from the spec: [word_at(n)], the containing limb, "0 if beyond
    capacity"; bigint.h is not among the sources. *)
Definition word_at (x : BigInt) (n : nat) : Z :=
  if (n <? size x)%nat then limb (reg x) n else 0.

(** Modelled from the spec: [sign()], [is_negative()], [is_positive()] read
    the sign tag and [is_zero()] tests that the magnitude is zero, i.e. that
    no limb is significant; bigint.h is not among the sources. *)
Definition sign (x : BigInt) : Sign := signedness x.
Definition is_negative (x : BigInt) : bool :=
  match sign x with Negative => true | Positive => false end.
Definition is_positive (x : BigInt) : bool :=
  match sign x with Negative => false | Positive => true end.
Definition is_zero (x : BigInt) : bool := (sig_words x =? 0)%nat.

(** Modelled from the spec: [clear()] "clears current value": the limbs are
    zeroed in place.  The spec gives it no effect on the sign tag, and its
    callers in bigint.cpp call it bare, without [set_sign]; the tag is kept.
    bigint.h is not among the sources. *)
Definition clear (x : BigInt) : BigInt :=
  {| reg := replicate (size x) 0; signedness := signedness x |}.

(** Modelled from the spec: [get_byte(k, w)], the "byte-extraction helper ...
    a pure, stateless bit-shift operation"; byte 0 is the most significant
    byte of the limb, so that [byte_at] below returns "the n-th
    least-significant byte".  get_byte.h is not among the sources. *)
Definition get_byte (byte_num : nat) (input : Z) : Z :=
  to_byte (Z.shiftr input (8 * Z.of_nat (WB - 1 - byte_num))).

(** The value a BigInt denotes, sign apart: the sum of [words[i] * 2^(W*i)]. *)
Fixpoint limbs_value (l : list Z) : Z :=
  match l with
  | [] => 0
  | w :: l' => w + 2 ^ Z.of_nat W * limbs_value l'
  end.

Definition magnitude (x : BigInt) : Z := limbs_value (take (sig_words x) (reg x)).

(** Every limb is a [W]-bit unsigned number. *)
Definition wf_limbs (l : list Z) : bool :=
  forallb (fun w => (0 <=? w) && (w <? 2 ^ Z.of_nat W)) l.
Definition wf (x : BigInt) : bool := wf_limbs (reg x).

(** *** Sign management (bigint.cpp 288-335) *)

Definition set_sign (x : BigInt) (s : Sign) : BigInt :=
  if is_zero x then {| reg := reg x; signedness := Positive |}
  else {| reg := reg x; signedness := s |}.

Definition reverse_sign (x : BigInt) : Sign :=
  match sign x with
  | Positive => Negative
  | Negative => Positive
  end.

Definition flip_sign (x : BigInt) : BigInt := set_sign x (reverse_sign x).

(** *** Construction (bigint.cpp 16-60) *)

(** The object a constructor body starts from: no limbs.  Its sign tag is
    not initialised; every constructor below assigns it before it is read. *)
Definition fresh : BigInt := {| reg := []; signedness := Positive |}.

Definition resize_reg (x : BigInt) (n : nat) : BigInt := set_reg x (resize n 0 (reg x)).

Definition BigInt_of_u64 (n : Z) : BigInt :=
  let x := set_sign fresh Positive in
  if n =? 0 then x
  else
    let limbs_needed := (8 / WB)%nat in
    let x := resize_reg x (4 * limbs_needed) in
    foldl (fun x j =>
             set_reg x (<[j := Z.land (Z.shiftr n (Z.of_nat (j * W))) (MP_WORD_MASK ws)]> (reg x)))
          x (seq 0 limbs_needed).

Definition BigInt_of_sign_size (s : Sign) (sz : nat) : BigInt :=
  {| reg := resize (round_up sz 8) 0 []; signedness := s |}.

Definition BigInt_copy (b : BigInt) : BigInt :=
  let b_words := sig_words b in
  if (b_words =? 0)%nat then set_sign (resize_reg fresh 2) Positive
  else
    let x := resize_reg fresh (round_up b_words 8) in
    let x := set_reg x (take b_words (reg b) ++ drop b_words (reg x)) in
    set_sign x (sign b).

(** Unary minus and [abs] (bigint.cpp 317-335). *)
Definition negate (x : BigInt) : BigInt := flip_sign (BigInt_copy x).
Definition abs (x : BigInt) : BigInt := set_sign (BigInt_copy x) Positive.

(** *** Growth (bigint.cpp 131-146) *)

Definition grow_reg (x : BigInt) (n : nat) : BigInt :=
  resize_reg x (round_up (size_t_add (size x) n) 8).

Definition grow_to (x : BigInt) (n : nat) : BigInt :=
  if (size x <? n)%nat then resize_reg x (round_up n 8) else x.

(** *** Byte and bit accessors (bigint.cpp 163-240) *)

Definition byte_at (x : BigInt) (n : nat) : Z :=
  let word_num := (n / WB)%nat in
  let byte_num := (n mod WB)%nat in
  if (size x <=? word_num)%nat then 0
  else get_byte (WB - byte_num - 1) (limb (reg x) word_num).

Definition get_bit (x : BigInt) (n : nat) : bool :=
  negb (Z.land (Z.shiftr (word_at x (n / W)) (Z.of_nat (n mod W))) 1 =? 0).

(** The 8-byte window of [get_substring]: [piece] after the loop. *)
Definition substring_window (x : BigInt) (offset : nat) : Z :=
  foldl (fun piece j =>
           to_u64 (Z.lor (Z.shiftl piece 8) (byte_at x (offset / 8 + (7 - j)))))
        0 (seq 0 8).

(** [(1 << length) - 1], computed in [int], then converted to [u64bit]. *)
Definition substring_mask (length : nat) : option Z :=
  match int_shl 1 length with
  | None => None
  | Some s =>
      match int_sub s 1 with
      | None => None
      | Some m => Some (to_u64 m)
      end
  end.

Definition get_substring (x : BigInt) (offset length : nat) : outcome Z :=
  if (32 <? length)%nat then Invalid_Argument
  else
    let piece := substring_window x offset in
    match substring_mask length with
    | None => Undefined
    | Some mask =>
        let shift := (offset mod 8)%nat in
        Value (to_u32 (Z.land (Z.shiftr piece (Z.of_nat shift)) mask))
    end.

(** The window of [get_substring] starting at byte [n]: bytes [n+7] down to
    [n], most significant first. *)
Definition window_bytes (x : BigInt) (n : nat) : list Z :=
  map (fun k => byte_at x (n + k)) [7; 6; 5; 4; 3; 2; 1; 0]%nat.

(** The substring as specified: the window, shifted right by [offset mod 8]
    and cut to its low [length] bits. *)
Definition substring_of_window (x : BigInt) (offset length : nat) : Z :=
  (be_combine (window_bytes x (offset / 8)) / 2 ^ Z.of_nat (offset mod 8))
    mod 2 ^ Z.of_nat length.

Definition set_bit (x : BigInt) (n : nat) : BigInt :=
  let which := (n / W)%nat in
  let mask := wtrunc ws (Z.shiftl 1 (Z.of_nat (n mod W))) in
  let x := if (size x <=? which)%nat then grow_to x (which + 1) else x in
  set_reg x (<[which := Z.lor (limb (reg x) which) mask]> (reg x)).

Definition clear_bit (x : BigInt) (n : nat) : BigInt :=
  let which := (n / W)%nat in
  let mask := wtrunc ws (Z.shiftl 1 (Z.of_nat (n mod W))) in
  if (which <? size x)%nat
  then set_reg x (<[which := Z.land (limb (reg x) which) (wtrunc ws (Z.lnot mask))]> (reg x))
  else x.

(** *** Size queries (bigint.cpp 242-267) *)

(** The loop of [bits()]: [top_bits] and [mask] step down together while the
    bit under [mask] is clear. *)
Fixpoint bits_scan (top_word mask : Z) (top_bits : nat) : nat :=
  match top_bits with
  | O => O
  | S k =>
      if Z.land top_word mask =? 0
      then bits_scan top_word (Z.shiftr mask 1) k
      else top_bits
  end.

Definition bits (x : BigInt) : nat :=
  let words := sig_words x in
  if (words =? 0)%nat then O
  else
    let full_words := (words - 1)%nat in
    (full_words * W + bits_scan (word_at x full_words) (MP_WORD_TOP_BIT ws) W)%nat.

Definition bytes (x : BigInt) : nat := ((bits x + 7) / 8)%nat.

Definition mask_bits (x : BigInt) (n : nat) : BigInt :=
  if (n =? 0)%nat then clear x
  else if (bits x <=? n)%nat then x
  else
    let top_word := (n / W)%nat in
    let mask := wtrunc ws (Z.shiftl 1 (Z.of_nat (n mod W)) - 1) in
    let x :=
      if (top_word <? size x)%nat
      then foldl (fun x j => set_reg x (<[j := 0]> (reg x)))
                 x (seq (top_word + 1) (size x - (top_word + 1)))
      else x in
    set_reg x (<[top_word := Z.land (limb (reg x) top_word) mask]> (reg x)).

(** *** Binary codec (bigint.cpp 337-365) *)

(** One step of the decoder: shift a byte into a limb. *)
Definition shift_in (a b : Z) : Z := wtrunc ws (Z.lor (Z.shiftl a 8) b).

(** The bytes folded into limb [j] by the first loop of [binary_decode], in
    the order they are folded, and those folded into the last limb. *)
Definition chunk_bytes (buf : list Z) (length j : nat) : list Z :=
  map (fun k => nth (length - WB * j - k) buf 0) (rev (seq 1 WB)).

Definition leading_bytes (buf : list Z) (length : nat) : list Z :=
  map (fun j => nth j buf 0) (seq 0 (length mod WB)).

(** [binary_encode] writes into the caller's buffer [output]. *)
Definition binary_encode (x : BigInt) (output : list Z) : list Z :=
  let sig_bytes := bytes x in
  foldl (fun output j => <[(sig_bytes - j - 1)%nat := byte_at x j]> output)
        output (seq 0 sig_bytes).

Definition binary_decode (x : BigInt) (buf : list Z) (length : nat) : BigInt :=
  let x := clear x in
  let x := resize_reg x (round_up (length / WB + 1) 8) in
  let x :=
    foldl (fun x j =>
             let top := (length - WB * j)%nat in
             foldl (fun x k =>
                      set_reg x (<[j := wtrunc ws (Z.lor (Z.shiftl (limb (reg x) j) 8)
                                                           (nth (top - k) buf 0))]> (reg x)))
                   x (rev (seq 1 WB)))
          x (seq 0 (length / WB)) in
  foldl (fun x j =>
           set_reg x (<[(length / WB)%nat :=
                          wtrunc ws (Z.lor (Z.shiftl (limb (reg x) (length / WB)) 8)
                                           (nth j buf 0))]> (reg x)))
        x (seq 0 (length mod WB)).

(** *** Comparison (bigint.cpp 148-161) *)

(** Modelled from the spec: [data()], the limb storage; bigint.h is not among
    the sources. *)
Definition data (x : BigInt) : list Z := reg x.

(** Modelled from the spec: [bigint_cmp], the magnitude comparison primitive:
    "given two limb sequences and their significant lengths, returns a
    three-way comparison of magnitudes (ignoring sign)"; mp_core is not among
    the sources. *)
Definition bigint_cmp (x : list Z) (x_size : nat) (y : list Z) (y_size : nat) : Z :=
  match limbs_value (take x_size x) ?= limbs_value (take y_size y) with
  | Lt => -1
  | Eq => 0
  | Gt => 1
  end.

Definition cmp (x n : BigInt) (check_signs : bool) : Z :=
  if check_signs then
    if is_positive n && is_negative x then -1
    else if is_negative n && is_positive x then 1
    else if is_negative n && is_negative x
    then - bigint_cmp (data x) (sig_words x) (data n) (sig_words n)
    else bigint_cmp (data x) (sig_words x) (data n) (sig_words n)
  else bigint_cmp (data x) (sig_words x) (data n) (sig_words n).

(** The three-way comparison of two magnitudes. *)
Definition magnitude_cmp (x n : BigInt) : Z :=
  match magnitude x ?= magnitude n with
  | Lt => -1
  | Eq => 0
  | Gt => 1
  end.

(** *** Construction from text (bigint.cpp 62-92) *)

(** Modelled from the spec: the digit decoder [decode], which "given a byte
    buffer of digit characters (or raw bytes, for Binary) and a base tag ...
    returns a BigInt magnitude" and fails "with an invalid-argument/format
    error on malformed digits".  The limbs of the result are laid out by
    [binary_decode].  big_code.cpp is not among the sources. *)
Definition digit_value (c : Z) : option Z :=
  if (48 <=? c) && (c <=? 57) then Some (c - 48)
  else if (97 <=? c) && (c <=? 102) then Some (c - 87)
  else if (65 <=? c) && (c <=? 70) then Some (c - 55)
  else None.

Definition radix (base : Base) : Z :=
  match base with Binary => 256 | Octal => 8 | Decimal => 10 | Hexadecimal => 16 end.

Fixpoint digits_value (r acc : Z) (ds : list Z) : option Z :=
  match ds with
  | [] => Some acc
  | d :: ds' =>
      match digit_value d with
      | Some v => if v <? r then digits_value r (acc * r + v) ds' else None
      | None => None
      end
  end.

Fixpoint be_bytes (n : nat) (v : Z) : list Z :=
  match n with
  | O => []
  | S k => to_byte (Z.shiftr v (8 * Z.of_nat k)) :: be_bytes k v
  end.

Definition byte_length (v : Z) : nat :=
  if v <=? 0 then O else Z.to_nat (Z.log2 v / 8 + 1).

Definition BigInt_of_magnitude (v : Z) : BigInt :=
  binary_decode fresh (be_bytes (byte_length v) v) (byte_length v).

Definition decode (buf : list Z) (base : Base) : outcome BigInt :=
  match base with
  | Binary => Value (binary_decode fresh buf (length buf))
  | _ =>
      match digits_value (radix base) 0 buf with
      | Some v => Value (BigInt_of_magnitude v)
      | None => Invalid_Argument
      end
  end.

(** [str[i] == c]. *)
Definition char_is (str : string) (i : nat) (c : ascii) : bool :=
  match String.get i str with
  | Some a => Ascii.eqb a c
  | None => false
  end.

(** The bytes [str.data() + markers], [str.length() - markers] of them. *)
Definition string_bytes (str : string) (markers : nat) : list Z :=
  take (String.length str - markers)
       (drop markers (map (fun a => Z.of_N (N_of_ascii a)) (list_ascii_of_string str))).

Definition BigInt_of_string (str : string) : outcome BigInt :=
  let base := Decimal in
  let markers := O in
  let negative := false in
  let '(markers, negative) :=
    if (0 <? String.length str)%nat && char_is str 0 "-"
    then ((markers + 1)%nat, true) else (markers, negative) in
  let '(markers, base) :=
    if (markers + 2 <? String.length str)%nat
       && char_is str markers "0" && char_is str (markers + 1) "x"
    then ((markers + 2)%nat, Hexadecimal)
    else if (markers + 1 <? String.length str)%nat && char_is str markers "0"
    then ((markers + 1)%nat, Octal)
    else (markers, base) in
  match decode (string_bytes str markers) base with
  | Value v => Value (if negative then set_sign v Negative else set_sign v Positive)
  | Invalid_Argument => Invalid_Argument
  | Undefined => Undefined
  end.

(** The number a BigInt denotes: [sign * magnitude]. *)
Definition value (x : BigInt) : Z :=
  match sign x with
  | Positive => magnitude x
  | Negative => - magnitude x
  end.

End Core.

(** ** The text grammar *)

(** The grammar of the string constructor, read off the text: an optional
    leading [-]; then [0x] followed by at least one more character selects
    hexadecimal, else [0] followed by at least one more character selects
    octal, else the base is decimal.  The markers are stripped. *)
Definition strip_sign (str : string) : bool * string :=
  match str with
  | String c rest => if Ascii.eqb c "-" then (true, rest) else (false, str)
  | EmptyString => (false, str)
  end.

Definition strip_base (rest : string) : Base * string :=
  match rest with
  | String c0 (String c1 tail) =>
      if Ascii.eqb c0 "0" then
        match tail with
        | String _ _ => if Ascii.eqb c1 "x" then (Hexadecimal, tail) else (Octal, String c1 tail)
        | EmptyString => (Octal, String c1 tail)
        end
      else (Decimal, rest)
  | _ => (Decimal, rest)
  end.

Definition bytes_of_string (s : string) : list Z :=
  map (fun a => Z.of_N (N_of_ascii a)) (list_ascii_of_string s).

(** ** Sequences of sign-setting operations *)

Inductive sign_op : Set :=
  | OpSetSign (s : Sign)
  | OpFlipSign
  | OpNegate
  | OpAbs.

Definition apply_sign_op (x : BigInt) (op : sign_op) : BigInt :=
  match op with
  | OpSetSign s => set_sign x s
  | OpFlipSign => flip_sign x
  | OpNegate => negate x
  | OpAbs => abs x
  end.

Definition run_sign_ops (x : BigInt) (ops : list sign_op) : BigInt :=
  foldl apply_sign_op x ops.

(** ** The mutators of the core *)

Inductive mutation : Set :=
  | MSetSign (s : Sign)
  | MFlipSign
  | MGrowReg (n : nat)
  | MGrowTo (n : nat)
  | MSetBit (n : nat)
  | MClearBit (n : nat)
  | MMaskBits (n : nat)
  | MBinaryDecode (buf : list Z) (length : nat).

Definition mutate (ws : word_size) (x : BigInt) (m : mutation) : BigInt :=
  match m with
  | MSetSign s => set_sign x s
  | MFlipSign => flip_sign x
  | MGrowReg n => grow_reg x n
  | MGrowTo n => grow_to x n
  | MSetBit n => set_bit ws x n
  | MClearBit n => clear_bit ws x n
  | MMaskBits n => mask_bits ws x n
  | MBinaryDecode buf length => binary_decode ws x buf length
  end.

(** ** Further entry points of bigint.cpp *)

(** [binary_decode(const MemoryRegion<byte>&)] (bigint.cpp 367-373): the
    buffer comes with its own size. *)
Definition binary_decode_region (ws : word_size) (x : BigInt) (buf : list Z) : BigInt :=
  binary_decode ws x buf (length buf).

(** Every entry of a buffer is a byte. *)
Definition all_bytes (buf : list Z) : bool :=
  forallb (fun b => (0 <=? b) && (b <? 256)) buf.

(** [encoded_size] (bigint.cpp 269-286).  The decimal branch multiplies
    [bits()] by a [double]; that product is not computed here but taken as
    the function [decimal_estimate] of [bits()]. *)
Definition encoded_size (ws : word_size) (decimal_estimate : nat -> nat)
    (x : BigInt) (base : Base) : nat :=
  match base with
  | Binary => bytes ws x
  | Hexadecimal => (2 * bytes ws x)%nat
  | Octal => ((bits ws x + 2) / 3)%nat
  | Decimal => decimal_estimate (bits ws x)
  end.

(** * Properties *)

(** ** Limb vectors *)

Section Limbs.

Context (ws : word_size).

Local Abbreviation W := (MP_WORD_BITS ws).
Local Abbreviation WB := (WORD_BYTES ws).

Lemma W_pos : (0 < W)%nat.
Proof. destruct ws; cbn; lia. Qed.

Lemma W_eq : W = (8 * WB)%nat.
Proof. reflexivity. Qed.

Lemma WB_pos : (0 < WB)%nat.
Proof. destruct ws; cbn; lia. Qed.

Lemma pow2W_pos : 0 < 2 ^ Z.of_nat W.
Proof. apply Z.pow_pos_nonneg; lia. Qed.

Lemma wf_limbs_Forall l :
  wf_limbs ws l = true <-> Forall (fun w => 0 <= w < 2 ^ Z.of_nat W) l.
Proof.
  unfold wf_limbs. rewrite forallb_forall, Forall_forall.
  split; intros H w Hw.
  - apply list_elem_of_In, H in Hw. lia.
  - apply list_elem_of_In, H in Hw. lia.
Qed.

Lemma wf_limbs_limb l i :
  wf_limbs ws l = true -> 0 <= limb l i < 2 ^ Z.of_nat W.
Proof.
  intros H. apply wf_limbs_Forall in H. unfold limb.
  rewrite nth_lookup. destruct (l !! i) as [w|] eqn:E; cbn.
  - eapply Forall_lookup_1 in H; eauto.
  - pose proof pow2W_pos. lia.
Qed.

Lemma wf_limbs_cons w l :
  wf_limbs ws (w :: l) = true <-> 0 <= w < 2 ^ Z.of_nat W /\ wf_limbs ws l = true.
Proof.
  unfold wf_limbs. cbn [forallb]. rewrite andb_true_iff. split; intros [? ?]; split; auto; lia.
Qed.

Lemma wf_limbs_app l k :
  wf_limbs ws (l ++ k) = wf_limbs ws l && wf_limbs ws k.
Proof. apply forallb_app. Qed.

Lemma wf_limbs_replicate n : wf_limbs ws (replicate n 0) = true.
Proof.
  apply wf_limbs_Forall, Forall_replicate. pose proof pow2W_pos. lia.
Qed.

Lemma wf_limbs_take n l : wf_limbs ws l = true -> wf_limbs ws (take n l) = true.
Proof. rewrite !wf_limbs_Forall. apply Forall_take. Qed.

Lemma wf_limbs_drop n l : wf_limbs ws l = true -> wf_limbs ws (drop n l) = true.
Proof. rewrite !wf_limbs_Forall. apply Forall_drop. Qed.

Lemma wf_limbs_resize n l : wf_limbs ws l = true -> wf_limbs ws (resize n 0 l) = true.
Proof.
  intros H. rewrite resize_spec, wf_limbs_app, wf_limbs_take, wf_limbs_replicate; auto.
Qed.

Lemma wf_limbs_insert l i w :
  wf_limbs ws l = true -> 0 <= w < 2 ^ Z.of_nat W -> wf_limbs ws (<[i := w]> l) = true.
Proof. rewrite !wf_limbs_Forall. intros. by apply Forall_insert. Qed.

Lemma wtrunc_range z : 0 <= wtrunc ws z < 2 ^ Z.of_nat W.
Proof. apply Z.mod_pos_bound, pow2W_pos. Qed.

Lemma wtrunc_small z : 0 <= z < 2 ^ Z.of_nat W -> wtrunc ws z = z.
Proof. apply Z.mod_small. Qed.

(** [sig_words] *)

Lemma sig_words_scan_le l n : (sig_words_scan l n <= n)%nat.
Proof. induction n; cbn; [lia|]. destruct (limb l n =? 0); lia. Qed.

Lemma sig_words_scan_zero l n i :
  (sig_words_scan l n <= i < n)%nat -> limb l i = 0.
Proof.
  induction n; cbn; [lia|].
  destruct (limb l n =? 0) eqn:E; [|lia].
  intros Hi. destruct (decide (i = n)) as [->|]; [lia|]. apply IHn. lia.
Qed.

Lemma sig_words_scan_top l n :
  (0 < sig_words_scan l n)%nat -> limb l (sig_words_scan l n - 1) <> 0.
Proof.
  induction n; cbn; [lia|].
  destruct (limb l n =? 0) eqn:E; [auto|].
  intros _. replace (S n - 1)%nat with n by lia. lia.
Qed.

Lemma sig_words_le x : (sig_words x <= size x)%nat.
Proof. apply sig_words_scan_le. Qed.

Lemma limb_ge l i : (length l <= i)%nat -> limb l i = 0.
Proof. intros. unfold limb. by apply nth_overflow. Qed.

Lemma sig_words_zero x i : (sig_words x <= i)%nat -> limb (reg x) i = 0.
Proof.
  intros Hi. destruct (decide (i < size x)%nat).
  - eapply sig_words_scan_zero. unfold sig_words in Hi. split; eauto.
  - apply limb_ge. unfold size in *. lia.
Qed.

Lemma sig_words_top x :
  (0 < sig_words x)%nat -> limb (reg x) (sig_words x - 1) <> 0.
Proof. apply sig_words_scan_top. Qed.

(** [limbs_value] *)

Lemma limbs_value_nonneg l : wf_limbs ws l = true -> 0 <= limbs_value ws l.
Proof.
  induction l as [|w l IH]; cbn [limbs_value]; [lia|].
  intros H. apply wf_limbs_cons in H as [Hw Hl]. pose proof pow2W_pos.
  specialize (IH Hl). nia.
Qed.

Lemma limbs_value_bound l :
  wf_limbs ws l = true -> limbs_value ws l < 2 ^ (Z.of_nat W * Z.of_nat (length l)).
Proof.
  induction l as [|w l IH]; intros H; [cbn; lia|].
  cbn [limbs_value length]. apply wf_limbs_cons in H as [Hw Hl].
  specialize (IH Hl). pose proof pow2W_pos.
  replace (Z.of_nat W * Z.of_nat (S (length l)))
    with (Z.of_nat W + Z.of_nat W * Z.of_nat (length l)) by lia.
  rewrite Z.pow_add_r by lia.
  generalize dependent (2 ^ (Z.of_nat W * Z.of_nat (length l))).
  generalize dependent (2 ^ Z.of_nat W). intros. nia.
Qed.

Lemma limbs_value_app l k :
  limbs_value ws (l ++ k)
  = limbs_value ws l + 2 ^ (Z.of_nat W * Z.of_nat (length l)) * limbs_value ws k.
Proof.
  induction l as [|w l IH]; cbn [limbs_value length app].
  - rewrite Z.mul_0_r. cbn. lia.
  - rewrite IH.
    replace (Z.of_nat W * Z.of_nat (S (length l)))
      with (Z.of_nat W + Z.of_nat W * Z.of_nat (length l)) by lia.
    rewrite Z.pow_add_r by lia. ring.
Qed.

Lemma limbs_value_replicate n : limbs_value ws (replicate n 0) = 0.
Proof. induction n; cbn; [done|]. cbn in IHn. rewrite IHn. lia. Qed.

Lemma limbs_value_zeros l : (forall i, limb l i = 0) -> limbs_value ws l = 0.
Proof.
  induction l as [|w l IH]; intros H; cbn; [done|].
  rewrite IH; [|intros i; apply (H (S i))]. specialize (H O). cbn in H. lia.
Qed.

(** Bit [m] of the value is bit [m mod W] of limb [m / W]. *)
Lemma limbs_value_testbit l (m : nat) :
  wf_limbs ws l = true ->
  Z.testbit (limbs_value ws l) (Z.of_nat m)
  = Z.testbit (limb l (m / W)) (Z.of_nat (m mod W)).
Proof.
  revert m. induction l as [|w l IH]; intros m H.
  - rewrite limb_ge by (cbn; lia). cbn [limbs_value]. by rewrite !Z.testbit_0_l.
  - cbn [limbs_value]. apply wf_limbs_cons in H as [Hw Hl].
    pose proof W_pos. pose proof pow2W_pos.
    destruct (decide (m < W)%nat) as [Hm|Hm].
    + rewrite Nat.div_small, Nat.mod_small by lia. cbn [limb nth].
      rewrite <- (Z.mod_pow2_bits_low _ (Z.of_nat W)) by lia.
      rewrite (Z.mul_comm (2 ^ Z.of_nat W)), Z.mod_add by lia.
      rewrite Z.mod_small by lia. done.
    + replace m with ((m - W) + 1 * W)%nat at 1 2 3 by lia.
      rewrite Nat.div_add, Nat.Div0.mod_add by lia.
      replace ((m - W) / W + 1)%nat with (S ((m - W) / W)) by lia.
      change (limb (w :: l) (S ((m - W) / W))) with (limb l ((m - W) / W)).
      rewrite <- IH by done.
      replace (Z.of_nat (m - W + 1 * W)) with (Z.of_nat (m - W) + Z.of_nat W) by lia.
      rewrite <- Z.div_pow2_bits by lia.
      f_equal. rewrite (Z.mul_comm (2 ^ Z.of_nat W)), Z.div_add by lia.
      rewrite Z.div_small by lia. lia.
Qed.

(** Trailing zero limbs do not count. *)
Lemma magnitude_all x : magnitude ws x = limbs_value ws (reg x).
Proof.
  unfold magnitude. rewrite <- (take_drop (sig_words x) (reg x)) at 2.
  rewrite limbs_value_app, (limbs_value_zeros (drop _ _)); [lia|].
  intros i. unfold limb. rewrite nth_lookup, lookup_drop, <- nth_lookup.
  apply sig_words_zero. lia.
Qed.

Lemma magnitude_nonneg x : wf ws x = true -> 0 <= magnitude ws x.
Proof. intros. rewrite magnitude_all. by apply limbs_value_nonneg. Qed.

Lemma limbs_value_limb_zero l :
  wf_limbs ws l = true -> limbs_value ws l = 0 -> forall i, limb l i = 0.
Proof.
  induction l as [|w l IH]; intros H Hv i.
  - by rewrite limb_ge by (cbn; lia).
  - cbn [limbs_value] in Hv. apply wf_limbs_cons in H as [Hw Hl].
    pose proof (limbs_value_nonneg l Hl). pose proof pow2W_pos.
    assert (w = 0 /\ limbs_value ws l = 0) as [-> Hz] by nia.
    destruct i; [done|]. apply (IH Hl Hz).
Qed.

Lemma is_zero_magnitude x :
  wf ws x = true -> (is_zero x = true <-> magnitude ws x = 0).
Proof.
  intros Hwf. unfold is_zero. rewrite Nat.eqb_eq. split.
  - intros E. unfold magnitude. by rewrite E.
  - intros Hm. rewrite magnitude_all in Hm.
    destruct (decide (sig_words x = 0)%nat) as [|Hne]; [done|].
    exfalso. apply (sig_words_top x); [lia|].
    by apply limbs_value_limb_zero.
Qed.

End Limbs.

(** ** Sign management *)

Section SignManagement.

Context (ws : word_size).

Lemma set_sign_reg x s : reg (set_sign x s) = reg x.
Proof. unfold set_sign. by destruct (is_zero x). Qed.

Lemma set_sign_is_zero x s : is_zero (set_sign x s) = is_zero x.
Proof. unfold is_zero, sig_words, size. by rewrite set_sign_reg. Qed.

Lemma set_sign_zero x s : is_zero x = true -> sign (set_sign x s) = Positive.
Proof. unfold set_sign. by intros ->. Qed.

Lemma set_sign_nonzero x s : is_zero x = false -> sign (set_sign x s) = s.
Proof. unfold set_sign. by intros ->. Qed.

Lemma BigInt_copy_wf x : wf ws x = true -> wf ws (BigInt_copy x) = true.
Proof.
  intros Hwf. unfold BigInt_copy, wf.
  destruct (sig_words x =? 0)%nat; rewrite set_sign_reg; cbn [reg set_reg resize_reg fresh].
  - by apply wf_limbs_resize.
  - rewrite wf_limbs_app, wf_limbs_take, wf_limbs_drop; auto using wf_limbs_resize.
Qed.

(** Every sign-setting operation ends in [set_sign]. *)
Lemma apply_sign_op_set_sign x op :
  exists y s, apply_sign_op x op = set_sign y s /\ (wf ws x = true -> wf ws y = true).
Proof.
  destruct op as [s| | |]; cbn [apply_sign_op].
  - by exists x, s.
  - by exists x, (reverse_sign x).
  - exists (BigInt_copy x), (reverse_sign (BigInt_copy x)). split; [done|]. apply BigInt_copy_wf.
  - exists (BigInt_copy x), Positive. split; [done|]. apply BigInt_copy_wf.
Qed.

Lemma apply_sign_op_wf x op : wf ws x = true -> wf ws (apply_sign_op x op) = true.
Proof.
  intros Hwf. destruct (apply_sign_op_set_sign x op) as (y & s & -> & Hy).
  unfold wf. rewrite set_sign_reg. by apply Hy.
Qed.

Lemma run_sign_ops_wf x ops : wf ws x = true -> wf ws (run_sign_ops x ops) = true.
Proof.
  revert x. induction ops as [|op ops IH]; intros x Hwf; cbn; [done|].
  apply IH. by apply apply_sign_op_wf.
Qed.

Lemma apply_sign_op_normal x op :
  is_zero (apply_sign_op x op) = true -> sign (apply_sign_op x op) = Positive.
Proof.
  destruct (apply_sign_op_set_sign x op) as (y & s & -> & _).
  rewrite set_sign_is_zero. apply set_sign_zero.
Qed.

(** C2. Zero normalization: after any non-empty sequence of sign-setting
    operations ([set_sign], [flip_sign], unary minus, [abs]) a value whose
    magnitude is zero has sign Positive; in particular [set_sign(Negative)]
    on a zero value leaves the sign Positive. *)
Theorem zero_normalization (x : BigInt) (ops : list sign_op) (op : sign_op) :
  wf ws x = true ->
  (magnitude ws (run_sign_ops x (ops ++ [op])) = 0 ->
   sign (run_sign_ops x (ops ++ [op])) = Positive)
  /\ (magnitude ws x = 0 -> sign (set_sign x Negative) = Positive).
Proof.
  intros Hwf. split.
  - unfold run_sign_ops. rewrite foldl_app. cbn [foldl].
    fold (run_sign_ops x ops). intros Hm.
    apply apply_sign_op_normal.
    apply (is_zero_magnitude ws); [|done].
    by apply apply_sign_op_wf, run_sign_ops_wf.
  - intros Hm. apply set_sign_zero. by apply (is_zero_magnitude ws).
Qed.

End SignManagement.

(** A negative zero built by the sign-and-size constructor is normalised by
    the first sign-setting operation applied to it. *)
Lemma zero_normalization_witness :
  sign (run_sign_ops (BigInt_of_sign_size Negative 1) ([OpNegate] ++ [OpSetSign Negative]))
  = Positive
  /\ sign (set_sign (BigInt_of_sign_size Negative 1) Negative) = Positive.
Proof.
  destruct (zero_normalization W32 (BigInt_of_sign_size Negative 1)
              [OpNegate] (OpSetSign Negative)) as [H1 H2].
  - reflexivity.
  - split; [apply H1 | apply H2]; reflexivity.
Defined.

(** ** Comparison *)

Section Comparison.

Context (ws : word_size).

Lemma bigint_cmp_magnitude x n :
  bigint_cmp ws (data x) (sig_words x) (data n) (sig_words n) = magnitude_cmp ws x n.
Proof. reflexivity. Qed.

Lemma magnitude_cmp_sign x n :
  (magnitude_cmp ws x n < 0 <-> magnitude ws x < magnitude ws n)
  /\ (magnitude_cmp ws x n = 0 <-> magnitude ws x = magnitude ws n)
  /\ (0 < magnitude_cmp ws x n <-> magnitude ws n < magnitude ws x).
Proof.
  unfold magnitude_cmp.
  destruct (Z.compare_spec (magnitude ws x) (magnitude ws n)); lia.
Qed.

Lemma cmp_unsigned x n : cmp ws x n false = magnitude_cmp ws x n.
Proof. unfold cmp. apply bigint_cmp_magnitude. Qed.

(** C4. With [check_signs] the result is negative for a negative receiver
    against a positive argument, positive for a positive receiver against a
    negative argument, the negated magnitude comparison when both are
    negative and the magnitude comparison when both are positive; without
    [check_signs] it is the magnitude comparison.  For -5 against 3 the
    signed comparison is negative and the unsigned one positive. *)
Theorem cmp_spec (x n : BigInt) :
  cmp ws x n true
  = match sign x, sign n with
    | Negative, Positive => -1
    | Positive, Negative => 1
    | Negative, Negative => - magnitude_cmp ws x n
    | Positive, Positive => magnitude_cmp ws x n
    end
  /\ cmp ws x n false = magnitude_cmp ws x n
  /\ cmp ws (negate (BigInt_of_u64 ws 5)) (BigInt_of_u64 ws 3) true < 0
  /\ 0 < cmp ws (negate (BigInt_of_u64 ws 5)) (BigInt_of_u64 ws 3) false.
Proof.
  split; [|split; [|split]].
  - unfold cmp, is_positive, is_negative. rewrite bigint_cmp_magnitude.
    by destruct (sign x), (sign n).
  - apply cmp_unsigned.
  - by destruct ws.
  - by destruct ws.
Qed.

End Comparison.

(** ** Bytes *)

Lemma to_byte_is_byte z : is_byte (to_byte z).
Proof. unfold is_byte, to_byte. apply Z.mod_pos_bound. lia. Qed.

Lemma lor_shiftl_byte a b : is_byte b -> Z.lor (Z.shiftl a 8) b = a * 256 + b.
Proof.
  intros Hb. rewrite Z.shiftl_mul_pow2 by lia. change (2 ^ 8) with 256.
  rewrite <- Z.lxor_lor, <- Z.add_nocarry_lxor; auto.
  all: apply Z.bits_inj'; intros n Hn; rewrite Z.land_spec, Z.bits_0.
  all: destruct (Z.lt_ge_cases n 8).
  all: try (replace (a * 256) with (a * 2 ^ 8) by lia;
            rewrite Z.mul_pow2_bits_low by lia; reflexivity).
  all: rewrite (Z.bits_above_log2 b), andb_false_r; auto; try (unfold is_byte in Hb; lia).
  all: destruct (Z.eq_dec b 0) as [->|]; [cbn; lia|].
  all: apply Z.log2_lt_pow2; unfold is_byte in Hb; try lia.
  all: eapply Z.lt_le_trans with (2 ^ 8); [cbn; lia|].
  all: apply Z.pow_le_mono_r; lia.
Qed.

Lemma be_combine_snoc bs b : be_combine (bs ++ [b]) = be_combine bs * 256 + b.
Proof. unfold be_combine. by rewrite foldl_app. Qed.

Lemma be_combine_range bs :
  Forall is_byte bs -> 0 <= be_combine bs < 256 ^ Z.of_nat (length bs).
Proof.
  induction bs as [|b bs IH] using rev_ind; intros H.
  - cbn. lia.
  - apply Forall_app in H as [Hbs Hb]. rewrite Forall_singleton in Hb.
    rewrite be_combine_snoc, length_app. cbn [length].
    specialize (IH Hbs). unfold is_byte in Hb.
    replace (Z.of_nat (length bs + 1)) with (Z.of_nat (length bs) + 1) by lia.
    rewrite Z.pow_add_r by lia. lia.
Qed.

(** Folding bytes into an accumulator that is wide enough for them. *)
Lemma foldl_shift_or (M : Z) (bs : list Z) :
  Forall is_byte bs -> 256 ^ Z.of_nat (length bs) <= M ->
  foldl (fun p b => Z.lor (Z.shiftl p 8) b mod M) 0 bs = be_combine bs.
Proof.
  induction bs as [|b bs IH] using rev_ind; intros H HM; [done|].
  pose proof (be_combine_range _ H) as Hr.
  apply Forall_app in H as [Hbs Hb]. rewrite Forall_singleton in Hb.
  rewrite length_app in HM, Hr. cbn [length] in HM, Hr.
  replace (Z.of_nat (length bs + 1)) with (Z.of_nat (length bs) + 1) in HM, Hr by lia.
  rewrite Z.pow_add_r in HM by lia.
  rewrite foldl_app. cbn [foldl]. rewrite IH by (auto; lia).
  rewrite lor_shiftl_byte by done. rewrite be_combine_snoc in *.
  rewrite Z.pow_add_r in Hr by lia. apply Z.mod_small. lia.
Qed.

(** ** Bit and byte accessors *)

Section Accessors.

Context (ws : word_size).

Local Abbreviation W := (MP_WORD_BITS ws).
Local Abbreviation WB := (WORD_BYTES ws).

Lemma byte_at_is_byte x n : is_byte (byte_at ws x n).
Proof.
  unfold byte_at. destruct (size x <=? n / WB)%nat.
  - unfold is_byte. lia.
  - apply to_byte_is_byte.
Qed.


(** *** [get_substring] *)

Lemma substring_mask_defined length :
  (length <= 30)%nat -> substring_mask length = Some (Z.ones (Z.of_nat length)).
Proof.
  intros H. do 31 (destruct length as [|length]; [reflexivity|]). lia.
Qed.

Lemma substring_mask_undefined length :
  (31 <= length)%nat -> substring_mask length = None.
Proof.
  intros H. destruct (decide (length = 31%nat)) as [->|Hne]; [reflexivity|].
  unfold substring_mask, int_shl. change (1 <? 0) with false. cbv iota.
  replace (INT_BITS <=? Z.of_nat length) with true; [reflexivity|].
  symmetry. apply Z.leb_le. unfold INT_BITS. lia.
Qed.

Lemma substring_window_spec x offset :
  substring_window ws x offset = be_combine (window_bytes ws x (offset / 8)).
Proof.
  rewrite <- (foldl_shift_or (2 ^ 64)).
  - unfold substring_window, window_bytes, to_u64.
    cbn [seq foldl map Nat.sub]. reflexivity.
  - unfold window_bytes. apply Forall_fmap, Forall_forall. intros k _. apply byte_at_is_byte.
  - cbn [length window_bytes map]. lia.
Qed.

Lemma get_substring_defined x offset length :
  (length <= 30)%nat ->
  get_substring ws x offset length = Value (substring_of_window ws x offset length).
Proof.
  intros H. unfold get_substring.
  replace (32 <? length)%nat with false by (symmetry; apply Nat.ltb_ge; lia).
  rewrite substring_mask_defined by done. f_equal.
  rewrite substring_window_spec, Z.land_ones, Z.shiftr_div_pow2 by lia.
  unfold to_u32, substring_of_window. apply Z.mod_small.
  match goal with |- 0 <= ?a mod ?b < _ =>
    assert (0 <= a mod b < b) by (apply Z.mod_pos_bound; lia) end.
  assert (2 ^ Z.of_nat length <= 2 ^ 32) by (apply Z.pow_le_mono_r; lia).
  lia.
Qed.


(** C6. At [length = 32], which the guard admits, the mask [(1 << length) - 1]
    is computed in [int] and shifts by the full width of [int]: the call has
    no defined result, for any offset and any value. *)
Theorem get_substring_32_undefined (x : BigInt) (offset : nat) :
  get_substring ws x offset 32 = Undefined
  /\ get_substring ws (BigInt_of_u64 ws 255) 0 32 = Undefined
  /\ get_substring ws (BigInt_of_u64 ws 255) 0 8 = Value 255.
Proof.
  split; [|split].
  - reflexivity.
  - reflexivity.
  - by destruct ws.
Qed.

(** *** Single bits *)

Lemma land_shiftr_1 a k : 0 <= k -> Z.land (Z.shiftr a k) 1 = Z.b2z (Z.testbit a k).
Proof.
  intros Hk. change 1 with (Z.ones 1) at 1.
  rewrite Z.land_ones, Z.shiftr_div_pow2, Z.testbit_spec' by lia. reflexivity.
Qed.

Lemma get_bit_testbit x n :
  get_bit ws x n = Z.testbit (word_at x (n / W)) (Z.of_nat (n mod W)).
Proof.
  unfold get_bit. rewrite land_shiftr_1 by lia.
  by destruct (Z.testbit _ _).
Qed.

Lemma bit_mask_eq n : wtrunc ws (Z.shiftl 1 (Z.of_nat (n mod W))) = 2 ^ Z.of_nat (n mod W).
Proof.
  pose proof (W_pos ws). pose proof (Nat.mod_upper_bound n W).
  rewrite Z.shiftl_1_l. apply wtrunc_small. split; [lia|].
  apply Z.pow_lt_mono_r; lia.
Qed.

Lemma round_up_8 n :
  (n <= round_up n 8 < n + 8)%nat /\ (round_up n 8 mod 8 = 0)%nat.
Proof.
  unfold round_up. cbn [Nat.eqb].
  destruct (Nat.eqb_spec (n mod 8) 0) as [E|E].
  - lia.
  - pose proof (Nat.mod_upper_bound n 8). split; [lia|].
    rewrite (Nat.div_mod_eq n 8) at 1.
    replace (8 * (n / 8) + n mod 8 + (8 - n mod 8))%nat with ((n / 8 + 1) * 8)%nat by lia.
    apply Nat.Div0.mod_mul.
Qed.

Lemma size_resize_reg x n : size (resize_reg x n) = n.
Proof. unfold size, resize_reg. cbn. apply length_resize. Qed.

Lemma size_set_reg_insert x i w : size (set_reg x (<[i := w]> (reg x))) = size x.
Proof. unfold size. cbn. apply length_insert. Qed.

Lemma limb_insert_eq l i w : (i < length l)%nat -> limb (<[i := w]> l) i = w.
Proof. intros H. unfold limb. rewrite nth_lookup, list_lookup_insert_eq; done. Qed.

Lemma limb_insert_ne l i j w : i <> j -> limb (<[i := w]> l) j = limb l j.
Proof. intros H. unfold limb. rewrite !nth_lookup, list_lookup_insert_ne; done. Qed.

Lemma size_set_bit x n :
  size (set_bit ws x n)
  = if (size x <=? n / W)%nat then round_up (n / W + 1) 8 else size x.
Proof.
  unfold set_bit. rewrite size_set_reg_insert.
  destruct (Nat.leb_spec (size x) (n / W)) as [H|H]; [|done].
  unfold grow_to. replace (size x <? n / W + 1)%nat with true
    by (symmetry; apply Nat.ltb_lt; lia).
  apply size_resize_reg.
Qed.

Lemma set_bit_in_range x n : (n / W < size (set_bit ws x n))%nat.
Proof.
  rewrite size_set_bit. destruct (Nat.leb_spec (size x) (n / W)); [|done].
  pose proof (round_up_8 (n / W + 1)). lia.
Qed.

(** C7. A bit reads as set after [set_bit] and as clear after [clear_bit];
    [clear_bit] changes nothing when the limb of the bit lies beyond the
    capacity. *)
Theorem bit_accessors_consistent (x : BigInt) (n : nat) :
  get_bit ws (set_bit ws x n) n = true
  /\ get_bit ws (clear_bit ws x n) n = false
  /\ ((size x <= n / W)%nat -> clear_bit ws x n = x).
Proof.
  pose proof (W_pos ws) as HW. pose proof (Nat.mod_upper_bound n W) as Hmod.
  split; [|split].
  - rewrite get_bit_testbit. unfold word_at.
    pose proof (set_bit_in_range x n) as Hin.
    rewrite (proj2 (Nat.ltb_lt _ _) Hin).
    unfold set_bit in *. rewrite size_set_reg_insert in Hin.
    cbn [reg set_reg]. rewrite limb_insert_eq by done.
    rewrite bit_mask_eq, Z.lor_spec, Z.pow2_bits_true by lia.
    apply orb_true_r.
  - rewrite get_bit_testbit. unfold word_at, clear_bit.
    destruct (Nat.ltb_spec (n / W) (size x)) as [Hin|Hout].
    + rewrite size_set_reg_insert, (proj2 (Nat.ltb_lt _ _) Hin).
      cbn [reg set_reg]. rewrite limb_insert_eq by done.
      rewrite bit_mask_eq, Z.land_spec. unfold wtrunc.
      rewrite Z.mod_pow2_bits_low, Z.lnot_spec, Z.pow2_bits_true by lia.
      apply andb_false_r.
    + rewrite (proj2 (Nat.ltb_ge _ _) Hout). apply Z.testbit_0_l.
  - intros Hout. unfold clear_bit. by rewrite (proj2 (Nat.ltb_ge _ _) Hout).
Qed.

(** C9 (as the code has it). Setting a bit whose limb lies beyond the
    capacity grows the storage to the limb count [n/W + 1] rounded up to the
    block size: the least multiple of 8 that holds limb [n/W]. *)
Theorem set_bit_grows_to_block (x : BigInt) (n : nat) :
  (size x <= n / W)%nat ->
  size (set_bit ws x n) = round_up (n / W + 1) 8
  /\ (n / W + 1 <= size (set_bit ws x n) < n / W + 1 + 8)%nat
  /\ (size (set_bit ws x n) mod 8 = 0)%nat.
Proof.
  intros H. rewrite size_set_bit, (proj2 (Nat.leb_le _ _) H).
  pose proof (round_up_8 (n / W + 1)). tauto.
Qed.

End Accessors.


Lemma bit_accessors_consistent_witness :
  clear_bit W32 (BigInt_of_u64 W32 5) 300 = BigInt_of_u64 W32 5.
Proof.
  apply (bit_accessors_consistent W32 (BigInt_of_u64 W32 5) 300). cbn. lia.
Defined.

(** C9 as stated fails: on a value without storage, [set_bit(0)] leaves a
    capacity of 8 limbs, not the single limb that would hold bit 0. *)
Lemma set_bit_capacity_not_minimal :
  size fresh = 0%nat /\ size (set_bit W32 fresh 0) = 8%nat
  /\ size (set_bit W32 fresh 0) <> (0 / MP_WORD_BITS W32 + 1)%nat.
Proof. cbn. repeat split; lia. Qed.

Lemma set_bit_grows_to_block_witness :
  size (set_bit W32 fresh 0) = round_up (0 / MP_WORD_BITS W32 + 1) 8
  /\ (0 / MP_WORD_BITS W32 + 1 <= size (set_bit W32 fresh 0) < 0 / MP_WORD_BITS W32 + 1 + 8)%nat
  /\ (size (set_bit W32 fresh 0) mod 8 = 0)%nat.
Proof.
  apply (set_bit_grows_to_block W32 fresh 0). cbn. lia.
Defined.

(** ** Accessors and the magnitude *)

Section Denotation.

Context (ws : word_size).

Local Abbreviation W := (MP_WORD_BITS ws).
Local Abbreviation WB := (WORD_BYTES ws).

Lemma word_at_limb x n : word_at x n = limb (reg x) n.
Proof.
  unfold word_at. destruct (Nat.ltb_spec n (size x)); [done|].
  symmetry. by apply limb_ge.
Qed.

Lemma get_bit_magnitude x n :
  wf ws x = true -> get_bit ws x n = Z.testbit (magnitude ws x) (Z.of_nat n).
Proof.
  intros Hwf. rewrite get_bit_testbit, word_at_limb, magnitude_all.
  symmetry. by apply limbs_value_testbit.
Qed.

(** Position of bit [i] of byte [n] inside its limb. *)
Lemma byte_bit_position (n i : nat) :
  (i < 8)%nat ->
  ((8 * n + i) / W = n / WB)%nat /\ ((8 * n + i) mod W = 8 * (n mod WB) + i)%nat.
Proof.
  intros Hi. unfold MP_WORD_BITS. pose proof (WB_pos ws) as HB.
  pose proof (Nat.div_mod_eq n WB) as E. pose proof (Nat.mod_upper_bound n WB).
  assert ((8 * n + i) = (8 * (n mod WB) + i) + (n / WB) * (8 * WB))%nat as -> by lia.
  rewrite Nat.div_add, Nat.Div0.mod_add by lia.
  rewrite Nat.div_small, Nat.mod_small by lia. lia.
Qed.

Lemma byte_at_limb x n :
  byte_at ws x n = (limb (reg x) (n / WB) / 2 ^ (8 * Z.of_nat (n mod WB))) mod 2 ^ 8.
Proof.
  unfold byte_at. pose proof (WB_pos ws). pose proof (Nat.mod_upper_bound n WB).
  destruct (Nat.leb_spec (size x) (n / WB)) as [Hout|Hin].
  - rewrite limb_ge by exact Hout. rewrite Z.div_0_l by lia. reflexivity.
  - unfold get_byte, to_byte. rewrite Z.shiftr_div_pow2 by lia.
    do 3 f_equal. lia.
Qed.

Lemma byte_at_testbit x n (i : nat) :
  wf ws x = true ->
  Z.testbit (byte_at ws x n) (Z.of_nat i)
  = if (i <? 8)%nat then Z.testbit (magnitude ws x) (Z.of_nat (8 * n + i)) else false.
Proof.
  intros Hwf. rewrite byte_at_limb.
  destruct (Nat.ltb_spec i 8) as [Hi|Hi].
  - rewrite Z.mod_pow2_bits_low, Z.div_pow2_bits by lia.
    rewrite magnitude_all, limbs_value_testbit by done.
    destruct (byte_bit_position n i Hi) as [-> ->]. f_equal. lia.
  - apply Z.mod_pow2_bits_high. lia.
Qed.

(** [byte_at(n)] is the [n]-th least significant byte of the magnitude. *)
Lemma byte_at_magnitude x n :
  wf ws x = true ->
  byte_at ws x n = (magnitude ws x / 2 ^ (8 * Z.of_nat n)) mod 2 ^ 8.
Proof.
  intros Hwf. apply Z.bits_inj'. intros i Hi.
  rewrite <- (Z2Nat.id i) by done. rewrite byte_at_testbit by done.
  destruct (Nat.ltb_spec (Z.to_nat i) 8) as [Hlt|Hge].
  - rewrite Z.mod_pow2_bits_low, Z.div_pow2_bits by lia. f_equal. lia.
  - symmetry. apply Z.mod_pow2_bits_high. lia.
Qed.

(** Two values with the same bytes have the same magnitude. *)
Lemma magnitude_ext x y :
  wf ws x = true -> wf ws y = true ->
  (forall n, byte_at ws x n = byte_at ws y n) -> magnitude ws x = magnitude ws y.
Proof.
  intros Hx Hy H. apply Z.bits_inj'. intros m Hm.
  pose proof (byte_at_testbit x (Z.to_nat m / 8) (Z.to_nat m mod 8) Hx) as Ex.
  pose proof (byte_at_testbit y (Z.to_nat m / 8) (Z.to_nat m mod 8) Hy) as Ey.
  pose proof (Nat.mod_upper_bound (Z.to_nat m) 8).
  rewrite (proj2 (Nat.ltb_lt _ _)) in Ex, Ey by lia.
  rewrite <- Nat.div_mod_eq, Z2Nat.id in Ex, Ey by done.
  rewrite <- Ex, <- Ey, H. reflexivity.
Qed.

End Denotation.

(** ** Bit length *)

Section BitLength.

Context (ws : word_size).

Local Abbreviation W := (MP_WORD_BITS ws).
Local Abbreviation WB := (WORD_BYTES ws).

Lemma clear_top_bit w k :
  0 <= w < 2 ^ (Z.of_nat k + 1) -> Z.land w (2 ^ Z.of_nat k) = 0 -> w < 2 ^ Z.of_nat k.
Proof.
  intros Hw Hl.
  assert (Z.testbit w (Z.of_nat k) = false) as Hb.
  { pose proof (Z.land_spec w (2 ^ Z.of_nat k) (Z.of_nat k)) as E.
    rewrite Hl, Z.bits_0, Z.pow2_bits_true, andb_true_r in E by lia. done. }
  apply Z.testbit_false in Hb; [|lia].
  assert (0 < 2 ^ Z.of_nat k) by (apply Z.pow_pos_nonneg; lia).
  rewrite Z.pow_add_r in Hw by lia. change (2 ^ 1) with 2 in Hw.
  assert (0 <= w / 2 ^ Z.of_nat k < 2) as Hq.
  { split; [apply Z.div_pos; lia | apply Z.div_lt_upper_bound; lia]. }
  rewrite Z.mod_small in Hb by lia.
  pose proof (Z.div_mod w (2 ^ Z.of_nat k)) as E.
  pose proof (Z.mod_pos_bound w (2 ^ Z.of_nat k)). rewrite Hb in E. lia.
Qed.

Lemma bits_scan_bound w t :
  0 <= w < 2 ^ Z.of_nat t ->
  w < 2 ^ Z.of_nat (bits_scan w (Z.shiftl 1 (Z.of_nat t - 1)) t)
  /\ (bits_scan w (Z.shiftl 1 (Z.of_nat t - 1)) t <= t)%nat.
Proof.
  induction t as [|k IH]; intros Hw; [cbn in *; lia|].
  cbn [bits_scan].
  replace (Z.of_nat (S k) - 1) with (Z.of_nat k) by lia.
  rewrite Z.shiftl_1_l.
  destruct (Z.eqb_spec (Z.land w (2 ^ Z.of_nat k)) 0) as [E|E].
  - assert (w < 2 ^ Z.of_nat k) as Hlt.
    { apply clear_top_bit; [|done]. replace (Z.of_nat k + 1) with (Z.of_nat (S k)) by lia. done. }
    destruct k as [|k'].
    + cbn [bits_scan]. cbn in *. lia.
    + replace (Z.shiftr (2 ^ Z.of_nat (S k')) 1) with (Z.shiftl 1 (Z.of_nat (S k') - 1)).
      * destruct IH as [IH1 IH2]; [lia|]. split; [done|lia].
      * rewrite Z.shiftl_1_l, Z.shiftr_div_pow2 by lia.
        replace (Z.of_nat (S k')) with (Z.of_nat (S k') - 1 + 1) at 2 by lia.
        rewrite Z.pow_add_r by lia. change (2 ^ 1) with 2.
        rewrite Z.div_mul by lia. reflexivity.
  - split; [lia|lia].
Qed.

Lemma bits_scan_top w t :
  (0 < bits_scan w (Z.shiftl 1 (Z.of_nat t - 1)) t)%nat ->
  Z.testbit w (Z.of_nat (bits_scan w (Z.shiftl 1 (Z.of_nat t - 1)) t) - 1) = true.
Proof.
  induction t as [|k IH]; [cbn; lia|].
  cbn [bits_scan].
  replace (Z.of_nat (S k) - 1) with (Z.of_nat k) by lia.
  rewrite Z.shiftl_1_l.
  destruct (Z.eqb_spec (Z.land w (2 ^ Z.of_nat k)) 0) as [E|E].
  - destruct k as [|k']; [cbn; lia|].
    replace (Z.shiftr (2 ^ Z.of_nat (S k')) 1) with (Z.shiftl 1 (Z.of_nat (S k') - 1)); [done|].
    rewrite Z.shiftl_1_l, Z.shiftr_div_pow2 by lia.
    replace (Z.of_nat (S k')) with (Z.of_nat (S k') - 1 + 1) at 2 by lia.
    rewrite Z.pow_add_r by lia. change (2 ^ 1) with 2.
    rewrite Z.div_mul by lia. reflexivity.
  - intros _. replace (Z.of_nat (S k) - 1) with (Z.of_nat k) by lia.
    destruct (Z.testbit w (Z.of_nat k)) eqn:Hb; [done|]. exfalso. apply E.
    apply Z.bits_inj'. intros i Hi. rewrite Z.land_spec, Z.bits_0.
    destruct (Z.eq_dec i (Z.of_nat k)) as [->|Hne].
    + by rewrite Hb.
    + rewrite Z.pow2_bits_false by lia. apply andb_false_r.
Qed.

Lemma bits_sig_words x : (bits ws x <= sig_words x * W)%nat.
Proof.
  unfold bits. destruct (Nat.eqb_spec (sig_words x) 0) as [E|E]; [lia|].
  pose proof (W_pos ws).
  assert (forall w, (bits_scan w (MP_WORD_TOP_BIT ws) W <= W)%nat) as Hb.
  { intros w. unfold MP_WORD_TOP_BIT. generalize W. intros t. revert w.
    generalize (Z.shiftl 1 (Z.of_nat t - 1)).
    induction t as [|k IH]; intros m w; cbn [bits_scan]; [lia|].
    destruct (Z.land w m =? 0); [|lia]. specialize (IH (Z.shiftr m 1) w). lia. }
  specialize (Hb (word_at x (sig_words x - 1))). nia.
Qed.

(** The magnitude fits in [bits()] bits. *)
Lemma magnitude_lt_bits x :
  wf ws x = true -> magnitude ws x < 2 ^ Z.of_nat (bits ws x).
Proof.
  intros Hwf. unfold bits, magnitude.
  destruct (Nat.eqb_spec (sig_words x) 0) as [E|E]; [rewrite E; reflexivity|].
  pose proof (sig_words_le x) as Hle. unfold size in Hle.
  assert (sig_words x = S (sig_words x - 1)) as Hs by lia.
  set (k := (sig_words x - 1)%nat) in *. rewrite Hs.
  assert (reg x !! k = Some (limb (reg x) k)) as Hk.
  { unfold limb. rewrite nth_lookup.
    destruct (lookup_lt_is_Some_2 (reg x) k) as [w ->]; [lia|done]. }
  rewrite (take_S_r _ _ _ Hk), limbs_value_app. cbn [limbs_value].
  rewrite length_take, Nat.min_l by lia.
  rewrite word_at_limb.
  pose proof (wf_limbs_limb ws (reg x) k Hwf) as Hw.
  destruct (bits_scan_bound (limb (reg x) k) W Hw) as [Hb _].
  fold (MP_WORD_TOP_BIT ws) in Hb.
  pose proof (limbs_value_bound ws (take k (reg x)) (wf_limbs_take ws k _ Hwf)) as Hlow.
  rewrite length_take, Nat.min_l in Hlow by lia.
  replace (Z.of_nat (k * W + bits_scan (limb (reg x) k) (MP_WORD_TOP_BIT ws) W))
    with (Z.of_nat W * Z.of_nat k + Z.of_nat (bits_scan (limb (reg x) k) (MP_WORD_TOP_BIT ws) W))
    by lia.
  rewrite Z.pow_add_r by lia.
  assert (0 < 2 ^ (Z.of_nat W * Z.of_nat k)) by (apply Z.pow_pos_nonneg; lia).
  generalize dependent (2 ^ (Z.of_nat W * Z.of_nat k)).
  generalize dependent (2 ^ Z.of_nat (bits_scan (limb (reg x) k) (MP_WORD_TOP_BIT ws) W)).
  intros. nia.
Qed.

Lemma bytes_bits x : (bits ws x <= 8 * bytes ws x < bits ws x + 8)%nat.
Proof.
  unfold bytes. pose proof (Nat.div_mod_eq (bits ws x + 7) 8).
  pose proof (Nat.mod_upper_bound (bits ws x + 7) 8). lia.
Qed.

Lemma byte_at_above_bytes x n :
  wf ws x = true -> (bytes ws x <= n)%nat -> byte_at ws x n = 0.
Proof.
  intros Hwf Hn. rewrite byte_at_magnitude by done.
  pose proof (magnitude_lt_bits x Hwf). pose proof (magnitude_nonneg ws x Hwf).
  pose proof (bytes_bits x).
  assert (2 ^ Z.of_nat (bits ws x) <= 2 ^ (8 * Z.of_nat n))
    by (apply Z.pow_le_mono_r; lia).
  rewrite Z.div_small by lia. reflexivity.
Qed.

End BitLength.

(** ** Loops over the limb vector *)

Lemma set_reg_reg x : set_reg x (reg x) = x.
Proof. by destruct x. Qed.

Lemma foldl_ext_all {A B} (f g : A -> B -> A) (a : A) (l : list B) :
  (forall a b, f a b = g a b) -> foldl f a l = foldl g a l.
Proof. intros H. revert a. induction l as [|b l IH]; intros a; cbn; [done|]. by rewrite H, IH. Qed.

Lemma foldl_map {A B C} (f : A -> B -> A) (g : C -> B) (a : A) (l : list C) :
  foldl f a (map g l) = foldl (fun a c => f a (g c)) a l.
Proof. revert a. induction l as [|c l IH]; intros a; cbn; [done|]. by rewrite IH. Qed.

(** A loop whose body stores into [reg] is a loop over [reg]. *)
Lemma foldl_set_reg {A} (f : A -> list Z -> list Z) (x : BigInt) (js : list A) :
  foldl (fun x j => set_reg x (f j (reg x))) x js
  = set_reg x (foldl (fun r j => f j r) (reg x) js).
Proof.
  revert x. induction js as [|j js IH]; intros x; cbn [foldl].
  - by rewrite set_reg_reg.
  - by rewrite IH.
Qed.

Lemma limb_insert_id l i : <[i := limb l i]> l = l.
Proof.
  apply list_insert_id'. intros Hi. unfold limb. rewrite nth_lookup.
  by destruct (lookup_lt_is_Some_2 l i Hi) as [w ->].
Qed.

(** A loop that keeps updating limb [j] from its previous content. *)
Lemma foldl_insert_same {A} (h : A -> Z -> Z) (j : nat) (r : list Z) (ks : list A) :
  foldl (fun r k => <[j := h k (limb r j)]> r) r ks
  = <[j := foldl (fun a k => h k a) (limb r j) ks]> r.
Proof.
  revert r. induction ks as [|k ks IH]; intros r; cbn [foldl].
  - by rewrite limb_insert_id.
  - rewrite IH. destruct (decide (j < length r)%nat) as [Hj|Hj].
    + by rewrite limb_insert_eq, list_insert_insert_eq.
    + by rewrite !(list_insert_ge r) by lia.
Qed.

(** A loop over [j = 0 .. m-1] that rewrites limb [j] from its own content. *)
Lemma foldl_insert_each (F : nat -> Z -> Z) (r : list Z) (m : nat) :
  length (foldl (fun r j => <[j := F j (limb r j)]> r) r (seq 0 m)) = length r
  /\ forall i,
      limb (foldl (fun r j => <[j := F j (limb r j)]> r) r (seq 0 m)) i
      = if (i <? m)%nat && (i <? length r)%nat then F i (limb r i) else limb r i.
Proof.
  induction m as [|m [IHl IH]].
  - split; [done|]. intros i. cbn [seq foldl]. by rewrite Nat.ltb_irrefl || destruct i.
  - rewrite seq_S, foldl_app. cbn [foldl Nat.add].
    split; [by rewrite length_insert|].
    intros i. destruct (decide (i = m)) as [->|Hne].
    + destruct (Nat.ltb_spec m (length r)) as [Hm|Hm].
      * rewrite limb_insert_eq by lia. rewrite IH.
        rewrite Nat.ltb_irrefl. cbn [andb].
        by rewrite (proj2 (Nat.ltb_lt m (S m))) by lia.
      * rewrite list_insert_ge by lia. rewrite IH, andb_false_r.
        by rewrite Nat.ltb_irrefl.
    + rewrite limb_insert_ne by done. rewrite IH.
      destruct (Nat.ltb_spec i m), (Nat.ltb_spec i (S m)); try lia; done.
Qed.

Lemma resize_zeros n m : resize n 0 (replicate m 0) = replicate n 0.
Proof.
  apply list_eq. intros i. destruct (decide (i < n)%nat) as [Hi|Hi].
  - rewrite lookup_replicate_2 by done.
    destruct (decide (i < m)%nat).
    + rewrite lookup_resize by (rewrite ?length_replicate; lia).
      by apply lookup_replicate_2.
    + by rewrite lookup_resize_new by (rewrite ?length_replicate; lia).
  - rewrite lookup_resize_old by lia. symmetry. apply lookup_replicate_None. lia.
Qed.

Lemma limb_replicate n i : limb (replicate n 0) i = 0.
Proof.
  unfold limb. rewrite nth_lookup.
  destruct (replicate n 0 !! i) as [w|] eqn:E; [|done].
  by apply lookup_replicate in E as [-> _].
Qed.

Lemma wf_limbs_of_limb ws l :
  (forall i, 0 <= limb l i < 2 ^ Z.of_nat (MP_WORD_BITS ws)) -> wf_limbs ws l = true.
Proof.
  intros H. apply wf_limbs_Forall, Forall_lookup. intros i w Hi.
  specialize (H i). unfold limb in H. by rewrite nth_lookup, Hi in H.
Qed.

(** Byte [k], counted from the least significant end, of a byte sequence
    read most significant byte first. *)
Lemma be_combine_byte (bs : list Z) (k : nat) :
  Forall is_byte bs ->
  (be_combine bs / 2 ^ (8 * Z.of_nat k)) mod 2 ^ 8
  = if (k <? length bs)%nat then nth (length bs - 1 - k) bs 0 else 0.
Proof.
  revert k. induction bs as [|b bs IH] using rev_ind; intros k H.
  - cbn [length]. replace (k <? 0)%nat with false by (symmetry; apply Nat.ltb_ge; lia).
    unfold be_combine. cbn [foldl]. by rewrite Z.div_0_l by lia.
  - apply Forall_app in H as [Hbs Hb]. rewrite Forall_singleton in Hb.
    unfold is_byte in Hb. rewrite be_combine_snoc, length_app. cbn [length].
    destruct k as [|k].
    + replace (0 <? length bs + 1)%nat with true by (symmetry; apply Nat.ltb_lt; lia).
      replace (length bs + 1 - 1 - 0)%nat with (length bs) by lia.
      rewrite nth_middle. change (2 ^ (8 * Z.of_nat 0)) with 1. rewrite Z.div_1_r.
      change (2 ^ 8) with 256. rewrite Z.add_comm, Z.mod_add by lia.
      apply Z.mod_small. lia.
    + replace (2 ^ (8 * Z.of_nat (S k))) with (256 * 2 ^ (8 * Z.of_nat k)).
      2:{ replace (8 * Z.of_nat (S k)) with (8 + 8 * Z.of_nat k) by lia.
          by rewrite Z.pow_add_r by lia. }
      rewrite <- Z.div_div by (try apply Z.pow_pos_nonneg; lia).
      replace ((be_combine bs * 256 + b) / 256) with (be_combine bs).
      2:{ rewrite Z.add_comm, Z.div_add by lia. rewrite Z.div_small by lia. lia. }
      rewrite IH by done.
      destruct (Nat.ltb_spec k (length bs)), (Nat.ltb_spec (S k) (length bs + 1));
        try lia.
      replace (length bs + 1 - 1 - S k)%nat with (length bs - 1 - k)%nat by lia.
      by rewrite app_nth1 by lia.
Qed.

(** ** Binary codec *)

Section Codec.

Context (ws : word_size).

Local Abbreviation W := (MP_WORD_BITS ws).
Local Abbreviation WB := (WORD_BYTES ws).

Lemma pow256_W : 256 ^ Z.of_nat WB = 2 ^ Z.of_nat W.
Proof.
  unfold MP_WORD_BITS. change 256 with (2 ^ 8). rewrite <- Z.pow_mul_r by lia.
  f_equal. lia.
Qed.

Lemma shift_in_combine (bs : list Z) :
  Forall is_byte bs -> (length bs <= WB)%nat ->
  foldl (shift_in ws) 0 bs = be_combine bs.
Proof.
  intros Hbs Hlen. apply (foldl_shift_or (2 ^ Z.of_nat W)); [done|].
  rewrite <- pow256_W. apply Z.pow_le_mono_r; lia.
Qed.

Lemma binary_decode_reg (y : BigInt) (buf : list Z) (len : nat) :
  reg (binary_decode ws y buf len)
  = <[(len / WB)%nat :=
        foldl (shift_in ws)
              (limb (foldl (fun r j => <[j := foldl (shift_in ws) (limb r j) (chunk_bytes ws buf len j)]> r)
                           (replicate (round_up (len / WB + 1) 8) 0)
                           (seq 0 (len / WB)))
                    (len / WB))
              (leading_bytes ws buf len)]>
      (foldl (fun r j => <[j := foldl (shift_in ws) (limb r j) (chunk_bytes ws buf len j)]> r)
             (replicate (round_up (len / WB + 1) 8) 0)
             (seq 0 (len / WB))).
Proof.
  unfold binary_decode.
  rewrite (foldl_set_reg
             (fun j r => <[(len / WB)%nat := (shift_in ws) (limb r (len / WB)) (nth j buf 0)]> r)).
  cbn [reg set_reg].
  rewrite (foldl_insert_same (fun j a => (shift_in ws) a (nth j buf 0))).
  rewrite <- (foldl_map (shift_in ws) (fun j => nth j buf 0)).
  fold (leading_bytes ws buf len).
  rewrite (foldl_ext_all _
             (fun x j => set_reg x (<[j := foldl (shift_in ws) (limb (reg x) j)
                                                 (chunk_bytes ws buf len j)]> (reg x)))).
  2:{ intros x j.
      rewrite (foldl_set_reg
                 (fun k r => <[j := (shift_in ws) (limb r j) (nth (len - WB * j - k) buf 0)]> r)).
      rewrite (foldl_insert_same (fun k a => (shift_in ws) a (nth (len - WB * j - k) buf 0))).
      by rewrite <- (foldl_map (shift_in ws) (fun k => nth (len - WB * j - k) buf 0)). }
  rewrite (foldl_set_reg (fun j r => <[j := foldl (shift_in ws) (limb r j) (chunk_bytes ws buf len j)]> r)).
  cbn [reg set_reg resize_reg clear]. rewrite resize_zeros. reflexivity.
Qed.

Lemma foldl_shift_in_range a bs :
  0 <= a < 2 ^ Z.of_nat W -> 0 <= foldl (shift_in ws) a bs < 2 ^ Z.of_nat W.
Proof.
  revert a. induction bs as [|b bs IH]; intros a Ha; cbn [foldl]; [done|].
  apply IH, wtrunc_range.
Qed.

Lemma binary_decode_wf y buf len : wf ws (binary_decode ws y buf len) = true.
Proof.
  unfold wf. rewrite binary_decode_reg.
  pose proof (pow2W_pos ws).
  destruct (foldl_insert_each
              (fun j a => foldl (shift_in ws) a (chunk_bytes ws buf len j))
              (replicate (round_up (len / WB + 1) 8) 0) (len / WB)) as [_ Hlimb].
  apply wf_limbs_insert.
  - apply wf_limbs_of_limb. intros i. rewrite Hlimb.
    destruct (_ && _); rewrite limb_replicate; [|lia].
    apply foldl_shift_in_range. lia.
  - apply foldl_shift_in_range. rewrite Hlimb, Nat.ltb_irrefl. cbn [andb].
    rewrite limb_replicate. lia.
Qed.

Lemma length_chunk_bytes buf len j : length (chunk_bytes ws buf len j) = WB.
Proof. unfold chunk_bytes. by rewrite length_map, length_rev, length_seq. Qed.

Lemma length_leading_bytes buf len : length (leading_bytes ws buf len) = (len mod WB)%nat.
Proof. unfold leading_bytes. by rewrite length_map, length_seq. Qed.

Lemma div_lt_mul (n b q : nat) : (0 < b)%nat -> (n / b < q)%nat -> (b * (n / b) + b <= b * q)%nat.
Proof. intros Hb H. nia. Qed.

Section Bytes.

Context (buf : list Z) (len : nat).
Hypothesis buf_bytes : forall k, (k < len)%nat -> is_byte (nth k buf 0).

Lemma chunk_bytes_are_bytes j : (j < len / WB)%nat -> Forall is_byte (chunk_bytes ws buf len j).
Proof.
  intros Hj. unfold chunk_bytes. apply Forall_fmap, Forall_forall. intros k Hk.
  apply list_elem_of_In, in_rev, in_seq in Hk. cbn. apply buf_bytes.
  pose proof (WB_pos ws). pose proof (Nat.div_mod_eq len WB).
  pose proof (div_lt_mul j WB (len / WB)). nia.
Qed.

Lemma leading_bytes_are_bytes : Forall is_byte (leading_bytes ws buf len).
Proof.
  unfold leading_bytes. apply Forall_fmap, Forall_forall. intros k Hk.
  apply list_elem_of_In, in_seq in Hk. cbn. apply buf_bytes.
  pose proof (WB_pos ws). pose proof (Nat.div_mod_eq len WB). lia.
Qed.

Lemma binary_decode_limb y i :
  limb (reg (binary_decode ws y buf len)) i
  = if (i <? len / WB)%nat then be_combine (chunk_bytes ws buf len i)
    else if (i =? len / WB)%nat then be_combine (leading_bytes ws buf len)
    else 0.
Proof.
  rewrite binary_decode_reg.
  destruct (foldl_insert_each
              (fun j a => foldl (shift_in ws) a (chunk_bytes ws buf len j))
              (replicate (round_up (len / WB + 1) 8) 0) (len / WB)) as [Hlen Hlimb].
  rewrite length_replicate in Hlen, Hlimb.
  pose proof (round_up_8 (len / WB + 1)) as [Hru _].
  pose proof (WB_pos ws) as HB. pose proof (Nat.mod_upper_bound len WB).
  destruct (decide (i = len / WB)%nat) as [->|Hne].
  - rewrite limb_insert_eq by lia. rewrite Hlimb, !Nat.ltb_irrefl, Nat.eqb_refl.
    cbn [andb]. rewrite limb_replicate.
    apply shift_in_combine; [apply leading_bytes_are_bytes|].
    rewrite length_leading_bytes. lia.
  - rewrite limb_insert_ne by done. rewrite Hlimb, limb_replicate.
    rewrite (proj2 (Nat.eqb_neq _ _) Hne).
    destruct (Nat.ltb_spec i (len / WB)) as [Hlt|Hge].
    + rewrite (proj2 (Nat.ltb_lt i (round_up (len / WB + 1) 8))) by lia. cbn [andb].
      apply shift_in_combine; [by apply chunk_bytes_are_bytes|].
      by rewrite length_chunk_bytes.
    + done.
Qed.

(** Decoding lays the buffer out so that byte [n] of the value is the
    [n]-th byte from the end of the buffer. *)
Lemma binary_decode_byte_at y n :
  byte_at ws (binary_decode ws y buf len) n
  = if (n <? len)%nat then nth (len - 1 - n) buf 0 else 0.
Proof.
  rewrite byte_at_limb, binary_decode_limb.
  pose proof (WB_pos ws) as HB.
  pose proof (Nat.div_mod_eq n WB) as En. pose proof (Nat.mod_upper_bound n WB) as Hn.
  pose proof (Nat.div_mod_eq len WB) as El. pose proof (Nat.mod_upper_bound len WB) as Hl.
  destruct (Nat.ltb_spec (n / WB) (len / WB)) as [Hlt|Hge].
  - pose proof (div_lt_mul n WB (len / WB) HB Hlt) as Hmul.
    rewrite be_combine_byte by (by apply chunk_bytes_are_bytes).
    rewrite length_chunk_bytes.
    rewrite (proj2 (Nat.ltb_lt (n mod WB) WB)) by lia.
    rewrite (proj2 (Nat.ltb_lt n len)) by lia.
    unfold chunk_bytes.
    rewrite (nth_indep _ 0 (nth (len - WB * (n / WB) - 0) buf 0))
      by (rewrite length_map, length_rev, length_seq; lia).
    rewrite (map_nth (fun k => nth (len - WB * (n / WB) - k) buf 0)).
    rewrite rev_nth, length_seq, seq_nth by (rewrite ?length_seq; lia).
    f_equal. lia.
  - destruct (Nat.eqb_spec (n / WB) (len / WB)) as [Heq|Hne].
    + rewrite be_combine_byte by apply leading_bytes_are_bytes.
      rewrite length_leading_bytes.
      destruct (Nat.ltb_spec (n mod WB) (len mod WB)) as [Hb|Hb].
      * rewrite (proj2 (Nat.ltb_lt n len)) by lia.
        unfold leading_bytes.
        rewrite (nth_indep _ 0 (nth 0 buf 0)) by (rewrite length_map, length_seq; lia).
        rewrite (map_nth (fun j => nth j buf 0)), seq_nth by lia.
        f_equal. lia.
      * by rewrite (proj2 (Nat.ltb_ge n len)) by lia.
    + assert (WB * (len / WB) + WB <= WB * (n / WB))%nat by nia.
      rewrite (proj2 (Nat.ltb_ge n len)) by lia.
      by rewrite Z.div_0_l by lia.
Qed.

End Bytes.

(** *** Encoding *)

Lemma foldl_store_reversed (f : nat -> Z) (B : nat) (out : list Z) (m : nat) :
  (m <= B <= length out)%nat ->
  length (foldl (fun out j => <[(B - j - 1)%nat := f j]> out) out (seq 0 m)) = length out
  /\ forall i,
      nth i (foldl (fun out j => <[(B - j - 1)%nat := f j]> out) out (seq 0 m)) 0
      = if (B - m <=? i)%nat && (i <? B)%nat then f (B - 1 - i)%nat else nth i out 0.
Proof.
  intros [Hm HB]. induction m as [|m IH].
  - split; [done|]. intros i. cbn [seq foldl].
    destruct (Nat.leb_spec (B - 0) i), (Nat.ltb_spec i B); try lia; done.
  - destruct IH as [IHl IH]; [lia|].
    rewrite seq_S, foldl_app. cbn [foldl Nat.add].
    split; [by rewrite length_insert|].
    intros i. fold (limb (<[(B - m - 1)%nat := f m]>
                          (foldl (fun out j => <[(B - j - 1)%nat := f j]> out) out (seq 0 m))) i).
    destruct (decide (i = B - m - 1)%nat) as [->|Hne].
    + rewrite limb_insert_eq by lia.
      rewrite (proj2 (Nat.leb_le _ _)), (proj2 (Nat.ltb_lt _ _)) by lia.
      cbn [andb]. f_equal. lia.
    + rewrite limb_insert_ne by done. unfold limb. rewrite IH.
      destruct (Nat.leb_spec (B - m) i), (Nat.leb_spec (B - S m) i), (Nat.ltb_spec i B);
        try lia; done.
Qed.

Lemma binary_encode_nth x output i :
  (bytes ws x <= length output)%nat ->
  nth i (binary_encode ws x output) 0
  = if (i <? bytes ws x)%nat then byte_at ws x (bytes ws x - 1 - i) else nth i output 0.
Proof.
  intros H. unfold binary_encode.
  destruct (foldl_store_reversed (byte_at ws x) (bytes ws x) output (bytes ws x)) as [_ ->];
    [lia|].
  rewrite Nat.sub_diag. by rewrite (proj2 (Nat.leb_le 0 i)) by lia.
Qed.

Lemma length_binary_encode x output :
  (bytes ws x <= length output)%nat ->
  length (binary_encode ws x output) = length output.
Proof.
  intros H. unfold binary_encode.
  by destruct (foldl_store_reversed (byte_at ws x) (bytes ws x) output (bytes ws x)) as [-> _];
    [lia|].
Qed.

End Codec.

(** C1. Round trip.  [binary_encode] writes exactly [bytes()] bytes, most
    significant first, and nothing of the sign; [binary_decode] of those
    bytes, into any receiver, gives back the magnitude (so the magnitude
    comparison of the decoded value with the original is 0). *)
Theorem binary_round_trip (ws : word_size) (x y : BigInt) (output : list Z) (s : Sign) :
  wf ws x = true ->
  (bytes ws x <= length output)%nat ->
  magnitude ws (binary_decode ws y (binary_encode ws x output) (bytes ws x)) = magnitude ws x
  /\ cmp ws (binary_decode ws y (binary_encode ws x output) (bytes ws x)) x false = 0
  /\ take (bytes ws x) (binary_encode ws x output)
     = map (byte_at ws x) (rev (seq 0 (bytes ws x)))
  /\ drop (bytes ws x) (binary_encode ws x output) = drop (bytes ws x) output
  /\ binary_encode ws {| reg := reg x; signedness := s |} output = binary_encode ws x output.
Proof.
  intros Hwf Hlen.
  assert (magnitude ws (binary_decode ws y (binary_encode ws x output) (bytes ws x))
          = magnitude ws x) as Hmag.
  { apply magnitude_ext; [apply binary_decode_wf | done |].
    intros n. rewrite binary_decode_byte_at.
    - destruct (Nat.ltb_spec n (bytes ws x)) as [Hn|Hn].
      + rewrite binary_encode_nth by done.
        rewrite (proj2 (Nat.ltb_lt _ _)) by lia. f_equal. lia.
      + symmetry. by apply byte_at_above_bytes.
    - intros k Hk. rewrite binary_encode_nth by done.
      rewrite (proj2 (Nat.ltb_lt _ _)) by done. apply byte_at_is_byte. }
  split; [done|]. split; [|split; [|split]].
  - rewrite cmp_unsigned. by apply magnitude_cmp_sign.
  - apply (nth_ext _ _ 0 0).
    + rewrite length_take, length_binary_encode, length_map, length_rev, length_seq by done.
      lia.
    + intros i Hi.
      rewrite length_take, length_binary_encode in Hi by done.
      rewrite nth_firstn, (proj2 (Nat.ltb_lt i (bytes ws x))) by lia.
      rewrite binary_encode_nth, (proj2 (Nat.ltb_lt i (bytes ws x))) by (done || lia).
      rewrite (nth_indep _ 0 (byte_at ws x 0))
        by (rewrite length_map, length_rev, length_seq; lia).
      rewrite map_nth, rev_nth, length_seq, seq_nth by (rewrite ?length_seq; lia).
      f_equal. lia.
  - apply (nth_ext _ _ 0 0).
    + by rewrite !length_drop, length_binary_encode.
    + intros i Hi. rewrite !nth_skipn, binary_encode_nth by done.
      by rewrite (proj2 (Nat.ltb_ge _ _)) by lia.
  - reflexivity.
Qed.

Lemma binary_round_trip_witness :
  magnitude W32
    (binary_decode W32 fresh
       (binary_encode W32 (BigInt_of_u64 W32 1108152157446) (replicate 8 170))
       (bytes W32 (BigInt_of_u64 W32 1108152157446)))
  = magnitude W32 (BigInt_of_u64 W32 1108152157446).
Proof.
  destruct (binary_round_trip W32 (BigInt_of_u64 W32 1108152157446) fresh (replicate 8 170)
              Negative) as [H _].
  - reflexivity.
  - vm_compute. lia.
  - exact H.
Defined.

(** ** [mask_bits] *)

Section MaskBits.

Context (ws : word_size).

Local Abbreviation W := (MP_WORD_BITS ws).
Local Abbreviation WB := (WORD_BYTES ws).

(** The loop that zeroes limbs [a .. a+m-1]. *)
Lemma foldl_zero_limbs (r : list Z) (a m : nat) :
  length (foldl (fun r j => <[j := 0]> r) r (seq a m)) = length r
  /\ forall i,
      limb (foldl (fun r j => <[j := 0]> r) r (seq a m)) i
      = if (a <=? i)%nat && (i <? a + m)%nat then 0 else limb r i.
Proof.
  induction m as [|m [IHl IH]].
  - split; [done|]. intros i. cbn [seq foldl].
    destruct (Nat.leb_spec a i), (Nat.ltb_spec i (a + 0)); try lia; done.
  - rewrite seq_S, foldl_app. cbn [foldl].
    split; [by rewrite length_insert|].
    intros i. destruct (decide (i = a + m)%nat) as [->|Hne].
    + rewrite (proj2 (Nat.leb_le _ _)), (proj2 (Nat.ltb_lt _ _)) by lia. cbn [andb].
      destruct (decide (a + m < length r)%nat).
      * by rewrite limb_insert_eq by lia.
      * rewrite list_insert_ge by lia. apply limb_ge. lia.
    + rewrite limb_insert_ne by done. rewrite IH.
      destruct (Nat.leb_spec a i), (Nat.ltb_spec i (a + m)), (Nat.ltb_spec i (a + S m));
        try lia; done.
Qed.

Lemma low_mask_eq n : wtrunc ws (Z.shiftl 1 (Z.of_nat (n mod W)) - 1) = Z.ones (Z.of_nat (n mod W)).
Proof.
  pose proof (W_pos ws). pose proof (Nat.mod_upper_bound n W).
  rewrite Z.shiftl_1_l, Z.ones_equiv, <- Z.sub_1_r. apply wtrunc_small.
  assert (0 < 2 ^ Z.of_nat (n mod W)) by (apply Z.pow_pos_nonneg; lia).
  assert (2 ^ Z.of_nat (n mod W) < 2 ^ Z.of_nat W) by (apply Z.pow_lt_mono_r; lia).
  lia.
Qed.

(** The limbs after a proper truncation. *)
Lemma mask_bits_limb x n i :
  (0 < n < bits ws x)%nat ->
  size (mask_bits ws x n) = size x
  /\ limb (reg (mask_bits ws x n)) i
     = if (i <? n / W)%nat then limb (reg x) i
       else if (i =? n / W)%nat then limb (reg x) i mod 2 ^ Z.of_nat (n mod W)
       else 0.
Proof.
  intros [Hn Hb]. unfold mask_bits.
  rewrite (proj2 (Nat.eqb_neq n 0)), (proj2 (Nat.leb_gt (bits ws x) n)) by lia.
  pose proof (bits_sig_words ws x) as Hsw. pose proof (sig_words_le x) as Hsz.
  pose proof (W_pos ws) as HW.
  assert (n / W < size x)%nat as Ht.
  { apply Nat.Div0.div_lt_upper_bound. nia. }
  rewrite (proj2 (Nat.ltb_lt _ _) Ht).
  rewrite (foldl_set_reg (fun j r => <[j := 0]> r)). cbn [reg set_reg].
  destruct (foldl_zero_limbs (reg x) (n / W + 1) (size x - (n / W + 1))) as [Hlen Hlimb].
  unfold size in *. cbn [reg set_reg]. rewrite length_insert. split; [done|].
  rewrite low_mask_eq, Z.land_ones by lia.
  destruct (decide (i = n / W)%nat) as [->|Hne].
  - rewrite limb_insert_eq by lia. rewrite Nat.ltb_irrefl, Nat.eqb_refl, Hlimb.
    by rewrite (proj2 (Nat.leb_gt _ _)) by lia.
  - rewrite limb_insert_ne by done. rewrite Hlimb, (proj2 (Nat.eqb_neq _ _) Hne).
    destruct (Nat.ltb_spec i (n / W)) as [Hlt|Hge].
    + by rewrite (proj2 (Nat.leb_gt _ _)) by lia.
    + rewrite (proj2 (Nat.leb_le _ _)) by lia. cbn [andb].
      destruct (Nat.ltb_spec i (n / W + 1 + (length (reg x) - (n / W + 1)))); [done|].
      apply limb_ge. lia.
Qed.

Lemma mask_bits_wf x n : wf ws x = true -> wf ws (mask_bits ws x n) = true.
Proof.
  intros Hwf. pose proof (pow2W_pos ws).
  destruct (decide (0 < n < bits ws x)%nat) as [Hn|Hn].
  - apply wf_limbs_of_limb. intros i.
    destruct (mask_bits_limb x n i Hn) as [_ ->].
    pose proof (wf_limbs_limb ws (reg x) i Hwf) as Hi.
    destruct (i <? n / W)%nat; [done|]. destruct (i =? n / W)%nat; [|lia].
    assert (0 < 2 ^ Z.of_nat (n mod W)) by (apply Z.pow_pos_nonneg; lia).
    pose proof (Z.mod_pos_bound (limb (reg x) i) (2 ^ Z.of_nat (n mod W))).
    pose proof (Z.mod_le (limb (reg x) i) (2 ^ Z.of_nat (n mod W))). lia.
  - unfold mask_bits. destruct (Nat.eqb_spec n 0).
    + apply wf_limbs_replicate.
    + by rewrite (proj2 (Nat.leb_le (bits ws x) n)) by lia.
Qed.

Lemma magnitude_clear x : magnitude ws (clear x) = 0.
Proof. rewrite magnitude_all. apply limbs_value_replicate. Qed.

(** [mask_bits(n)] keeps the lowest [n] bits of the magnitude. *)
Lemma mask_bits_magnitude x n :
  wf ws x = true -> magnitude ws (mask_bits ws x n) = magnitude ws x mod 2 ^ Z.of_nat n.
Proof.
  intros Hwf.
  pose proof (magnitude_nonneg ws x Hwf) as H0. pose proof (magnitude_lt_bits ws x Hwf) as Hlt.
  destruct (decide (0 < n < bits ws x)%nat) as [Hn|Hn].
  - apply Z.bits_inj'. intros m Hm. rewrite <- (Z2Nat.id m) by done.
    set (k := Z.to_nat m).
    rewrite magnitude_all, limbs_value_testbit by (by apply mask_bits_wf).
    destruct (mask_bits_limb x n (k / W) Hn) as [_ ->].
    pose proof (W_pos ws) as HW.
    pose proof (Nat.div_mod_eq k W). pose proof (Nat.mod_upper_bound k W).
    pose proof (Nat.div_mod_eq n W). pose proof (Nat.mod_upper_bound n W).
    destruct (Nat.ltb_spec (k / W) (n / W)) as [Hlt'|Hge].
    + pose proof (div_lt_mul k W (n / W) HW Hlt').
      rewrite Z.mod_pow2_bits_low by lia.
      rewrite magnitude_all. symmetry. by apply limbs_value_testbit.
    + destruct (Nat.eqb_spec (k / W) (n / W)) as [Heq|Hne].
      * destruct (decide (k mod W < n mod W)%nat).
        -- rewrite !Z.mod_pow2_bits_low by lia.
           rewrite magnitude_all. symmetry. by apply limbs_value_testbit.
        -- by rewrite !Z.mod_pow2_bits_high by lia.
      * assert (W * (n / W) + W <= W * (k / W))%nat by nia.
        rewrite Z.bits_0. symmetry. apply Z.mod_pow2_bits_high. lia.
  - unfold mask_bits. destruct (Nat.eqb_spec n 0) as [->|Hne].
    + rewrite magnitude_clear. change (2 ^ Z.of_nat 0) with 1. by rewrite Z.mod_1_r.
    + rewrite (proj2 (Nat.leb_le (bits ws x) n)) by lia.
      symmetry. apply Z.mod_small.
      assert (2 ^ Z.of_nat (bits ws x) <= 2 ^ Z.of_nat n) by (apply Z.pow_le_mono_r; lia).
      lia.
Qed.

(** C8 (as the code has it). [mask_bits(n)] truncates the value to its
    lowest [n] bits; [mask_bits(0)] gives a zero magnitude and leaves the sign
    tag as it was; for [n >= bits()] the value is unchanged, in particular
    for [n = bits()]; on 255, [mask_bits(4)] gives 15. *)
Theorem mask_bits_spec (x : BigInt) (n : nat) :
  wf ws x = true ->
  magnitude ws (mask_bits ws x n) = magnitude ws x mod 2 ^ Z.of_nat n
  /\ (magnitude ws (mask_bits ws x 0) = 0 /\ sign (mask_bits ws x 0) = sign x)
  /\ ((bits ws x <= n)%nat ->
      value ws (mask_bits ws x n) = value ws x /\ ((0 < n)%nat -> mask_bits ws x n = x))
  /\ value ws (mask_bits ws x (bits ws x)) = value ws x
  /\ value ws (mask_bits ws (BigInt_of_u64 ws 255) 4) = 15.
Proof.
  intros Hwf.
  pose proof (magnitude_nonneg ws x Hwf) as H0. pose proof (magnitude_lt_bits ws x Hwf) as Hlt.
  assert (forall m, (bits ws x <= m)%nat ->
            value ws (mask_bits ws x m) = value ws x
            /\ ((0 < m)%nat -> mask_bits ws x m = x)) as Hid.
  { intros m Hm. destruct (Nat.eqb_spec m 0) as [->|Hne].
    - split; [|lia]. unfold value. rewrite mask_bits_magnitude by done.
      assert (bits ws x = 0%nat) as E by lia. rewrite E in Hlt.
      change (2 ^ Z.of_nat 0) with 1 in *. rewrite Z.mod_1_r.
      assert (magnitude ws x = 0) as -> by lia.
      by destruct (sign _), (sign x).
    - assert (mask_bits ws x m = x) as ->; [|done].
      unfold mask_bits. rewrite (proj2 (Nat.eqb_neq m 0)) by done.
      by rewrite (proj2 (Nat.leb_le (bits ws x) m)) by lia. }
  split; [by apply mask_bits_magnitude|]. split; [|split; [|split]].
  - split; [apply magnitude_clear | reflexivity].
  - apply Hid.
  - apply Hid. lia.
  - by destruct ws.
Qed.

End MaskBits.

(** C8 as stated fails: [mask_bits(0)] on -255 leaves a zero that is still
    tagged Negative, not canonical zero. *)
Lemma mask_bits_zero_not_canonical :
  is_zero (mask_bits W32 (negate (BigInt_of_u64 W32 255)) 0) = true
  /\ magnitude W32 (mask_bits W32 (negate (BigInt_of_u64 W32 255)) 0) = 0
  /\ sign (mask_bits W32 (negate (BigInt_of_u64 W32 255)) 0) = Negative
  /\ sign (mask_bits W32 (negate (BigInt_of_u64 W32 255)) 0) <> Positive.
Proof. repeat split; try reflexivity. discriminate. Qed.

Lemma mask_bits_spec_witness :
  value W32 (mask_bits W32 (negate (BigInt_of_u64 W32 255)) 9)
  = value W32 (negate (BigInt_of_u64 W32 255))
  /\ mask_bits W32 (negate (BigInt_of_u64 W32 255)) 9 = negate (BigInt_of_u64 W32 255).
Proof.
  destruct (mask_bits_spec W32 (negate (BigInt_of_u64 W32 255)) 9) as (_ & _ & H & _).
  - reflexivity.
  - destruct H as [H1 H2]; [vm_compute; lia|].
    split; [exact H1 | apply H2; lia].
Defined.

(** ** Construction from text *)

Ltac scan_markers :=
  cbv beta iota zeta
      delta [String.length String.get Nat.ltb Nat.leb andb Nat.add strip_sign strip_base fst snd].

Section FromString.

Context (ws : word_size).

Lemma length_bytes_of_string s : length (bytes_of_string s) = String.length s.
Proof.
  unfold bytes_of_string. rewrite length_map.
  induction s as [|a s IH]; cbn; [done|]. by rewrite IH.
Qed.

Lemma string_bytes_drop str m : string_bytes str m = drop m (bytes_of_string str).
Proof.
  unfold string_bytes. fold (bytes_of_string str).
  apply take_ge. rewrite length_drop, length_bytes_of_string. lia.
Qed.

Lemma BigInt_of_string_grammar str :
  BigInt_of_string ws str
  = match decode ws (bytes_of_string (snd (strip_base (snd (strip_sign str)))))
                 (fst (strip_base (snd (strip_sign str)))) with
    | Value v => Value (set_sign v (if fst (strip_sign str) then Negative else Positive))
    | Invalid_Argument => Invalid_Argument
    | Undefined => Undefined
    end.
Proof.
  unfold BigInt_of_string, char_is.
  destruct str as [|a0 [|a1 [|a2 [|a3 s]]]]; scan_markers.
  all: try destruct (Ascii.eqb a0 "-") eqn:E0; scan_markers.
  all: try destruct (Ascii.eqb a0 "0") eqn:F0; scan_markers.
  all: try destruct (Ascii.eqb a1 "0") eqn:E1; scan_markers.
  all: try destruct (Ascii.eqb a1 "x") eqn:F1; scan_markers.
  all: try destruct (Ascii.eqb a2 "x") eqn:E2; scan_markers.
  all: rewrite string_bytes_drop; cbn [drop bytes_of_string list_ascii_of_string map].
  all: reflexivity.
Qed.

(** C3 (as the code has it). An optional leading [-] marks the text
    negative.  After it, [0x] followed by at least one more character selects
    hexadecimal, otherwise [0] followed by at least one more character
    selects octal, otherwise the base is decimal; the markers are stripped
    before the digit decoder runs.  The sign of the result is Negative when
    the marker is present and the decoded magnitude is not zero, and Positive
    otherwise.  The text [-0x10] gives sign Negative, magnitude 16 and
    [bits() = 5]. *)
Theorem BigInt_of_string_spec (str : string) :
  BigInt_of_string ws str
  = match decode ws (bytes_of_string (snd (strip_base (snd (strip_sign str)))))
                 (fst (strip_base (snd (strip_sign str)))) with
    | Value v => Value (set_sign v (if fst (strip_sign str) then Negative else Positive))
    | Invalid_Argument => Invalid_Argument
    | Undefined => Undefined
    end
  /\ match BigInt_of_string ws str with
     | Value v =>
         sign v = if fst (strip_sign str) && negb (is_zero v) then Negative else Positive
     | _ => True
     end
  /\ exists v, BigInt_of_string ws "-0x10" = Value v
              /\ sign v = Negative /\ magnitude ws v = 16 /\ bits ws v = 5%nat.
Proof.
  split; [apply BigInt_of_string_grammar|]. split.
  - rewrite BigInt_of_string_grammar.
    destruct (decode ws _ _) as [v| |]; [|done|done].
    rewrite set_sign_is_zero. destruct (is_zero v) eqn:Ez.
    + rewrite andb_false_r. by apply set_sign_zero.
    + rewrite andb_true_r. by apply set_sign_nonzero.
  - destruct ws; eexists; (split; [reflexivity|]); by vm_compute.
Qed.

End FromString.

(** C3 as stated fails: the text [-0] carries the sign marker, yet the value
    built from it is Positive; and for the text [0x] the character [x] goes
    to the octal decoder. *)
Lemma BigInt_of_string_sign_not_marker :
  fst (strip_sign "-0") = true
  /\ (exists v, BigInt_of_string W32 "-0" = Value v /\ sign v = Positive)
  /\ BigInt_of_string W32 "0x"
     = match decode W32 (bytes_of_string "x") Octal with
       | Value v => Value (set_sign v Positive)
       | Invalid_Argument => Invalid_Argument
       | Undefined => Undefined
       end.
Proof.
  split; [reflexivity|]. split; [|reflexivity].
  eexists. split; reflexivity.
Qed.

(** ** Every mutator keeps the limbs in range *)

Section Invariant.

Context (ws : word_size).

Local Abbreviation W := (MP_WORD_BITS ws).

Lemma log2_limb a : 0 <= a < 2 ^ Z.of_nat W -> Z.log2 a < Z.of_nat W.
Proof.
  intros Ha. pose proof (W_pos ws).
  destruct (Z.eq_dec a 0) as [->|Hne]; [change (Z.log2 0) with 0; lia|].
  apply Z.log2_lt_pow2; lia.
Qed.

Lemma lor_range a b :
  0 <= a < 2 ^ Z.of_nat W -> 0 <= b < 2 ^ Z.of_nat W -> 0 <= Z.lor a b < 2 ^ Z.of_nat W.
Proof.
  intros Ha Hb.
  assert (0 <= Z.lor a b) by (apply Z.lor_nonneg; lia).
  split; [done|].
  destruct (Z.eq_dec (Z.lor a b) 0) as [->|Hne]; [lia|].
  apply Z.log2_lt_pow2; [lia|]. rewrite Z.log2_lor by lia.
  pose proof (log2_limb a Ha). pose proof (log2_limb b Hb). lia.
Qed.

Lemma land_range a b :
  0 <= a < 2 ^ Z.of_nat W -> 0 <= b -> 0 <= Z.land a b < 2 ^ Z.of_nat W.
Proof.
  intros Ha Hb. split; [apply Z.land_nonneg; lia|].
  assert (0 <= Z.land a b) by (apply Z.land_nonneg; lia).
  destruct (Z.eq_dec (Z.land a b) 0) as [->|Hne]; [lia|].
  apply Z.log2_lt_pow2; [lia|].
  pose proof (Z.log2_land a b ltac:(lia) Hb).
  pose proof (log2_limb a Ha). lia.
Qed.

Lemma set_bit_wf x n : wf ws x = true -> wf ws (set_bit ws x n) = true.
Proof.
  intros Hwf. unfold set_bit, wf. cbn [reg set_reg].
  assert (wf ws (if (size x <=? n / W)%nat then grow_to x (n / W + 1) else x) = true) as Hg.
  { destruct (size x <=? n / W)%nat; [|done]. unfold grow_to.
    destruct (size x <? n / W + 1)%nat; [|done]. by apply wf_limbs_resize. }
  apply wf_limbs_insert; [done|]. apply lor_range.
  - by apply wf_limbs_limb.
  - rewrite bit_mask_eq. pose proof (W_pos ws). pose proof (Nat.mod_upper_bound n W).
    split; [apply Z.pow_nonneg; lia | apply Z.pow_lt_mono_r; lia].
Qed.

Lemma clear_bit_wf x n : wf ws x = true -> wf ws (clear_bit ws x n) = true.
Proof.
  intros Hwf. unfold clear_bit. destruct (n / W <? size x)%nat; [|done].
  apply wf_limbs_insert; [done|]. apply land_range.
  - by apply wf_limbs_limb.
  - apply wtrunc_range.
Qed.

Lemma mutate_wf x m : wf ws x = true -> wf ws (mutate ws x m) = true.
Proof.
  intros Hwf. destruct m; cbn [mutate].
  - unfold wf. by rewrite set_sign_reg.
  - unfold wf, flip_sign. by rewrite set_sign_reg.
  - by apply wf_limbs_resize.
  - unfold grow_to. destruct (size x <? n)%nat; [|done]. by apply wf_limbs_resize.
  - by apply set_bit_wf.
  - by apply clear_bit_wf.
  - by apply mask_bits_wf.
  - apply binary_decode_wf.
Qed.

(** C10. In every state the limbs at or above [sig_words()] and below the
    capacity are zero; every mutator leaves all limbs in range; and then
    [byte_at] and [get_bit], which bound their reads by the capacity, return
    the bytes and bits of the magnitude. *)
Theorem unused_capacity_is_zero (x : BigInt) (m : mutation) (i n : nat) :
  ((sig_words x <= i < size x)%nat -> limb (reg x) i = 0)
  /\ (wf ws x = true ->
      wf ws (mutate ws x m) = true
      /\ byte_at ws (mutate ws x m) n
         = (magnitude ws (mutate ws x m) / 2 ^ (8 * Z.of_nat n)) mod 2 ^ 8
      /\ get_bit ws (mutate ws x m) n = Z.testbit (magnitude ws (mutate ws x m)) (Z.of_nat n)
      /\ byte_at ws x n = (magnitude ws x / 2 ^ (8 * Z.of_nat n)) mod 2 ^ 8
      /\ get_bit ws x n = Z.testbit (magnitude ws x) (Z.of_nat n)).
Proof.
  split.
  - intros [H _]. by apply sig_words_zero.
  - intros Hwf. pose proof (mutate_wf x m Hwf) as Hm.
    split; [done|]. split; [by apply byte_at_magnitude|].
    split; [by apply get_bit_magnitude|].
    split; [by apply byte_at_magnitude | by apply get_bit_magnitude].
Qed.

End Invariant.

(** After [mask_bits(8)] on a value with two significant limbs the upper
    limb is zero and reads as such. *)
Lemma unused_capacity_is_zero_witness :
  limb (reg (mask_bits W8 (BigInt_of_u64 W8 4660) 8)) 1 = 0
  /\ byte_at W8 (mutate W8 (BigInt_of_u64 W8 4660) (MMaskBits 8)) 1
     = (magnitude W8 (mutate W8 (BigInt_of_u64 W8 4660) (MMaskBits 8)) / 2 ^ (8 * Z.of_nat 1))
         mod 2 ^ 8.
Proof.
  split.
  - apply (unused_capacity_is_zero W8 (mask_bits W8 (BigInt_of_u64 W8 4660) 8)
             MFlipSign 1 0).
    vm_compute. lia.
  - apply (unused_capacity_is_zero W8 (BigInt_of_u64 W8 4660) (MMaskBits 8) 1 1).
    reflexivity.
Defined.

(** * Further properties of the code *)

(** ** What depends on the limbs only *)

Section LimbExtensionality.

Context (ws : word_size).

Local Abbreviation W := (MP_WORD_BITS ws).

Lemma limbs_value_ext l l' :
  (forall i, limb l i = limb l' i) -> limbs_value ws l = limbs_value ws l'.
Proof.
  revert l'. induction l as [|w l IH]; intros l' H.
  - symmetry. apply limbs_value_zeros. intros i. rewrite <- H. by apply limb_ge; cbn; lia.
  - destruct l' as [|w' l'].
    + apply limbs_value_zeros. intros i. rewrite H. by destruct i.
    + cbn [limbs_value]. rewrite (IH l') by (intros i; apply (H (S i))).
      specialize (H O). cbn in H. by rewrite H.
Qed.

(** [sig_words] is the least index from which all limbs are zero. *)
Lemma sig_words_unique x s :
  (forall i, (s <= i)%nat -> limb (reg x) i = 0) ->
  ((0 < s)%nat -> limb (reg x) (s - 1) <> 0) ->
  sig_words x = s.
Proof.
  intros Hz Ht.
  destruct (Nat.lt_trichotomy (sig_words x) s) as [Hlt|[Heq|Hgt]]; [|done|].
  - exfalso. apply Ht; [lia|]. apply sig_words_zero. lia.
  - exfalso. apply (sig_words_top x); [lia|]. apply Hz. lia.
Qed.

Lemma sig_words_ext x y :
  (forall i, limb (reg x) i = limb (reg y) i) -> sig_words x = sig_words y.
Proof.
  intros H. apply sig_words_unique.
  - intros i Hi. rewrite H. by apply sig_words_zero.
  - intros Hs. rewrite H. by apply sig_words_top.
Qed.

Lemma magnitude_ext_limb x y :
  (forall i, limb (reg x) i = limb (reg y) i) -> magnitude ws x = magnitude ws y.
Proof. intros H. rewrite !magnitude_all. by apply limbs_value_ext. Qed.

Lemma bits_ext x y :
  (forall i, limb (reg x) i = limb (reg y) i) -> bits ws x = bits ws y.
Proof.
  intros H. unfold bits. rewrite !word_at_limb, (sig_words_ext x y H).
  by rewrite H.
Qed.

Lemma is_zero_magnitude_0 x : is_zero x = true -> magnitude ws x = 0.
Proof. unfold is_zero, magnitude. rewrite Nat.eqb_eq. by intros ->. Qed.

Lemma limb_resize_grow l n i : (length l <= n)%nat -> limb (resize n 0 l) i = limb l i.
Proof.
  intros Hn. unfold limb. rewrite !nth_lookup.
  destruct (decide (i < length l)%nat) as [Hi|Hi].
  - by rewrite lookup_resize by lia.
  - rewrite (lookup_ge_None_2 l i) by lia.
    destruct (decide (i < n)%nat).
    + by rewrite lookup_resize_new by lia.
    + by rewrite lookup_resize_old by lia.
Qed.

Lemma sig_words_zeros n s : sig_words {| reg := replicate n 0; signedness := s |} = 0%nat.
Proof.
  apply sig_words_unique; [|lia]. intros i _. apply limb_replicate.
Qed.

End LimbExtensionality.

(** ** Constructors and copies *)

Section Constructors.

Context (ws : word_size).

Local Abbreviation W := (MP_WORD_BITS ws).
Local Abbreviation WB := (WORD_BYTES ws).

Lemma limbs_needed_bits : ((8 / WB) * W = 64)%nat.
Proof. by destruct ws. Qed.

(** The limbs written by the constructor from a native integer. *)
Lemma BigInt_of_u64_limb n i :
  n <> 0 ->
  limb (reg (BigInt_of_u64 ws n)) i
  = if (i <? 8 / WB)%nat
    then Z.land (Z.shiftr n (Z.of_nat (i * W))) (MP_WORD_MASK ws)
    else 0.
Proof.
  intros Hn. unfold BigInt_of_u64. rewrite (proj2 (Z.eqb_neq n 0) Hn).
  rewrite (foldl_set_reg
             (fun j r => <[j := Z.land (Z.shiftr n (Z.of_nat (j * W))) (MP_WORD_MASK ws)]> r)).
  cbn [reg set_reg resize_reg set_sign fresh is_zero sig_words size sig_words_scan length
       Nat.eqb].
  destruct (foldl_insert_each
              (fun j _ => Z.land (Z.shiftr n (Z.of_nat (j * W))) (MP_WORD_MASK ws))
              (resize (4 * (8 / WB)) 0 []) (8 / WB)) as [_ ->].
  rewrite length_resize.
  assert (limb (resize (4 * (8 / WB)) 0 []) i = 0) as ->.
  { rewrite limb_resize_grow by (cbn; lia). by destruct i. }
  destruct (Nat.ltb_spec i (8 / WB)) as [Hi|Hi]; [|done].
  by rewrite (proj2 (Nat.ltb_lt i (4 * (8 / WB)))) by lia.
Qed.

Lemma BigInt_of_u64_wf n : wf ws (BigInt_of_u64 ws n) = true.
Proof.
  destruct (Z.eq_dec n 0) as [->|Hn]; [reflexivity|].
  apply wf_limbs_of_limb. intros i. rewrite BigInt_of_u64_limb by done.
  pose proof (pow2W_pos ws).
  destruct (i <? 8 / WB)%nat; [|lia].
  unfold MP_WORD_MASK. rewrite Z.land_ones by lia. apply Z.mod_pos_bound. lia.
Qed.

(** X1. The constructor from a native 64-bit integer builds exactly that
    integer: the magnitude is [n], the sign is Positive, the limbs are in
    range, and the capacity is four times the limbs a 64-bit integer needs
    (none at all for 0). *)
Theorem BigInt_of_u64_value (n : Z) :
  0 <= n < 2 ^ 64 ->
  value ws (BigInt_of_u64 ws n) = n
  /\ sign (BigInt_of_u64 ws n) = Positive
  /\ wf ws (BigInt_of_u64 ws n) = true
  /\ size (BigInt_of_u64 ws n) = if n =? 0 then 0%nat else (4 * (8 / WB))%nat.
Proof.
  intros Hn.
  assert (sign (BigInt_of_u64 ws n) = Positive) as Hs.
  { unfold BigInt_of_u64. destruct (n =? 0); [reflexivity|].
    rewrite (foldl_set_reg
               (fun j r => <[j := Z.land (Z.shiftr n (Z.of_nat (j * W))) (MP_WORD_MASK ws)]> r)).
    reflexivity. }
  split; [|split; [done|split; [apply BigInt_of_u64_wf|]]].
  - unfold value. rewrite Hs.
    destruct (Z.eq_dec n 0) as [->|Hne]; [reflexivity|].
    apply Z.bits_inj'. intros m Hm. rewrite <- (Z2Nat.id m) by done.
    set (k := Z.to_nat m).
    rewrite magnitude_all, limbs_value_testbit by apply BigInt_of_u64_wf.
    rewrite BigInt_of_u64_limb by done.
    pose proof (W_pos ws) as HW. pose proof limbs_needed_bits as HL.
    pose proof (Nat.div_mod_eq k W). pose proof (Nat.mod_upper_bound k W).
    destruct (Nat.ltb_spec (k / W) (8 / WB)) as [Hlt|Hge].
    + unfold MP_WORD_MASK. rewrite Z.land_spec, Z.shiftr_spec, Z.testbit_ones_nonneg by lia.
      rewrite (proj2 (Z.ltb_lt _ _)) by lia. rewrite andb_true_r. f_equal. lia.
    + rewrite Z.bits_0. symmetry.
      assert (64 <= k)%nat by nia.
      rewrite <- (Z.mod_small n (2 ^ 64)) by lia.
      apply Z.mod_pow2_bits_high. lia.
  - unfold BigInt_of_u64. destruct (n =? 0); [reflexivity|].
    rewrite (foldl_set_reg
               (fun j r => <[j := Z.land (Z.shiftr n (Z.of_nat (j * W))) (MP_WORD_MASK ws)]> r)).
    unfold size. cbn [reg set_reg resize_reg].
    destruct (foldl_insert_each
                (fun j _ => Z.land (Z.shiftr n (Z.of_nat (j * W))) (MP_WORD_MASK ws))
                (resize (4 * (8 / WB)) 0 (reg (set_sign fresh Positive))) (8 / WB)) as [-> _].
    apply length_resize.
Qed.

(** X2. The constructor from a sign and a size allocates the size rounded up
    to the block of zero limbs and stores the sign as given: with Negative it
    builds a zero that is tagged Negative, which the signed comparison puts
    below every Positive value, zero included. *)
Theorem BigInt_of_sign_size_zero (s : Sign) (sz : nat) (n : BigInt) :
  magnitude ws (BigInt_of_sign_size s sz) = 0
  /\ is_zero (BigInt_of_sign_size s sz) = true
  /\ bits ws (BigInt_of_sign_size s sz) = 0%nat
  /\ sign (BigInt_of_sign_size s sz) = s
  /\ size (BigInt_of_sign_size s sz) = round_up sz 8
  /\ (sign n = Positive -> cmp ws (BigInt_of_sign_size Negative sz) n true = -1).
Proof.
  assert (forall s, sig_words (BigInt_of_sign_size s sz) = 0%nat) as Hsw.
  { intros s'. apply sig_words_unique; [|lia]. intros i _.
    unfold BigInt_of_sign_size. cbn [reg]. rewrite limb_resize_grow by (cbn; lia).
    by destruct i. }
  split; [|split; [|split; [|split; [|split]]]].
  - unfold magnitude. by rewrite Hsw.
  - unfold is_zero. by rewrite Hsw.
  - unfold bits. by rewrite Hsw.
  - reflexivity.
  - unfold size, BigInt_of_sign_size. cbn [reg]. apply length_resize.
  - intros Hn. unfold cmp, is_positive, is_negative. rewrite Hn. reflexivity.
Qed.

(** The limbs of a copy are the limbs of the original. *)
Lemma BigInt_copy_limb b i : limb (reg (BigInt_copy b)) i = limb (reg b) i.
Proof.
  unfold BigInt_copy. destruct (Nat.eqb_spec (sig_words b) 0) as [E|E];
    rewrite set_sign_reg; cbn [reg set_reg resize_reg fresh].
  - rewrite limb_resize_grow by (cbn; lia).
    rewrite (sig_words_zero b i) by lia. by destruct i.
  - pose proof (sig_words_le b) as Hle. unfold size in Hle.
    pose proof (round_up_8 (sig_words b)) as [Hru _].
    unfold limb. rewrite !nth_lookup.
    destruct (decide (i < sig_words b)%nat) as [Hi|Hi].
    + rewrite lookup_app_l by (rewrite length_take; lia).
      by rewrite lookup_take_lt by lia.
    + rewrite lookup_app_r by (rewrite length_take; lia).
      rewrite length_take, Nat.min_l by lia.
      rewrite lookup_drop, <- !nth_lookup.
      fold (limb (resize (round_up (sig_words b) 8) 0 []) (sig_words b + (i - sig_words b))).
      rewrite limb_resize_grow by (cbn; lia).
      fold (limb (reg b) i). rewrite (sig_words_zero b i) by lia.
      by destruct (sig_words b + (i - sig_words b))%nat.
Qed.

Lemma BigInt_copy_is_zero b : is_zero (BigInt_copy b) = is_zero b.
Proof. unfold is_zero. by rewrite (sig_words_ext _ b (BigInt_copy_limb b)). Qed.

Lemma BigInt_copy_sign b :
  sign (BigInt_copy b) = if is_zero b then Positive else sign b.
Proof.
  pose proof (BigInt_copy_is_zero b) as Hz. revert Hz.
  unfold BigInt_copy, is_zero at 2 3. destruct (Nat.eqb_spec (sig_words b) 0) as [E|E].
  - reflexivity.
  - rewrite set_sign_is_zero. intros Hz. by apply set_sign_nonzero.
Qed.

Lemma value_zero x : is_zero x = true -> value ws x = 0.
Proof.
  intros H. unfold value. rewrite (is_zero_magnitude_0 ws x H). by destruct (sign x).
Qed.

(** X3. A copy denotes the same integer as the original: same limbs, hence
    same magnitude, significant words and bit length; same sign, except that
    a zero is copied as Positive.  Its capacity is trimmed to the significant
    words rounded up to the block (2 limbs for a zero), and copying a copy
    changes nothing. *)
Theorem BigInt_copy_spec (b : BigInt) :
  value ws (BigInt_copy b) = value ws b
  /\ magnitude ws (BigInt_copy b) = magnitude ws b
  /\ sign (BigInt_copy b) = (if is_zero b then Positive else sign b)
  /\ sig_words (BigInt_copy b) = sig_words b
  /\ bits ws (BigInt_copy b) = bits ws b
  /\ size (BigInt_copy b)
     = (if is_zero b then 2%nat else round_up (sig_words b) 8)
  /\ BigInt_copy (BigInt_copy b) = BigInt_copy b.
Proof.
  pose proof (magnitude_ext_limb ws _ b (BigInt_copy_limb b)) as Hm.
  pose proof (sig_words_ext _ b (BigInt_copy_limb b)) as Hsw.
  assert (size (BigInt_copy b) = (if is_zero b then 2%nat else round_up (sig_words b) 8))
    as Hsize.
  { unfold BigInt_copy, is_zero, size.
    destruct (Nat.eqb_spec (sig_words b) 0) as [E|E];
      rewrite set_sign_reg; cbn [reg set_reg resize_reg fresh].
    - apply length_resize.
    - pose proof (sig_words_le b) as Hle. unfold size in Hle.
      pose proof (round_up_8 (sig_words b)) as [Hru _].
      rewrite length_app, length_take, length_drop, length_resize. lia. }
  split; [|split; [done|split; [apply BigInt_copy_sign|split; [done|split; [|split; [done|]]]]]].
  - destruct (is_zero b) eqn:Ez.
    + rewrite (value_zero b Ez). apply value_zero. by rewrite BigInt_copy_is_zero.
    + unfold value. by rewrite Hm, BigInt_copy_sign, Ez.
  - by apply bits_ext, BigInt_copy_limb.
  - unfold BigInt_copy at 1. rewrite Hsw, BigInt_copy_sign.
    unfold BigInt_copy at 2, is_zero.
    destruct (Nat.eqb_spec (sig_words b) 0) as [E|E]; [reflexivity|].
    f_equal. unfold set_reg. cbn [reg signedness resize_reg fresh].
    f_equal. f_equal.
    unfold BigInt_copy. rewrite (proj2 (Nat.eqb_neq _ _) E), set_sign_reg.
    cbn [reg set_reg resize_reg fresh].
    pose proof (sig_words_le b) as Hle. unfold size in Hle.
    rewrite take_app_le by (rewrite length_take; lia).
    rewrite take_take. f_equal. lia.
Qed.

End Constructors.

Lemma BigInt_of_u64_value_witness :
  value W16 (BigInt_of_u64 W16 18446744073709551615) = 18446744073709551615.
Proof.
  apply (BigInt_of_u64_value W16 18446744073709551615). lia.
Defined.

Lemma BigInt_of_sign_size_zero_witness :
  cmp W32 (BigInt_of_sign_size Negative 3) (BigInt_of_u64 W32 0) true = -1.
Proof.
  apply (BigInt_of_sign_size_zero W32 Negative 3 (BigInt_of_u64 W32 0)). reflexivity.
Defined.

(** ** Negation and absolute value *)

Section Negation.

Context (ws : word_size).

Lemma value_set_sign x s :
  value ws (set_sign x s)
  = match s with Positive => magnitude ws x | Negative => - magnitude ws x end.
Proof.
  destruct (is_zero x) eqn:Ez.
  - rewrite value_zero by (by rewrite set_sign_is_zero).
    rewrite (is_zero_magnitude_0 ws x Ez). by destruct s.
  - unfold value. rewrite set_sign_nonzero by done.
    by rewrite (magnitude_ext_limb ws (set_sign x s) x)
      by (intros i; by rewrite set_sign_reg).
Qed.

Lemma value_flip_sign x : value ws (flip_sign x) = - value ws x.
Proof.
  unfold flip_sign. rewrite value_set_sign. unfold value, reverse_sign.
  destruct (sign x); lia.
Qed.

Lemma magnitude_BigInt_copy x : magnitude ws (BigInt_copy x) = magnitude ws x.
Proof. apply magnitude_ext_limb, BigInt_copy_limb. Qed.

Lemma value_BigInt_copy x : value ws (BigInt_copy x) = value ws x.
Proof.
  destruct (is_zero x) eqn:Ez.
  - rewrite (value_zero ws x Ez). apply value_zero. by rewrite BigInt_copy_is_zero.
  - unfold value. by rewrite magnitude_BigInt_copy, BigInt_copy_sign, Ez.
Qed.

(** X4. [flip_sign] and unary minus negate the integer denoted, [abs] gives
    its magnitude, and none of them leaves a zero tagged Negative; negating
    twice gives back the integer. *)
Theorem negation_spec (x : BigInt) :
  value ws (flip_sign x) = - value ws x
  /\ value ws (negate x) = - value ws x
  /\ value ws (negate (negate x)) = value ws x
  /\ value ws (abs x) = magnitude ws x
  /\ sign (abs x) = Positive
  /\ sign (negate x) = (if is_zero x then Positive else reverse_sign x)
  /\ sign (flip_sign x) = (if is_zero x then Positive else reverse_sign x).
Proof.
  assert (value ws (negate x) = - value ws x) as Hn.
  { unfold negate. by rewrite value_flip_sign, value_BigInt_copy. }
  assert (forall y, value ws (negate y) = - value ws y) as Hn'.
  { intros y. unfold negate. by rewrite value_flip_sign, value_BigInt_copy. }
  split; [apply value_flip_sign|]. split; [done|]. split; [rewrite !Hn'; lia|].
  split; [|split; [|split]].
  - unfold abs. by rewrite value_set_sign, magnitude_BigInt_copy.
  - unfold abs, set_sign. by destruct (is_zero (BigInt_copy x)).
  - unfold negate, flip_sign.
    destruct (is_zero x) eqn:Ez.
    + apply set_sign_zero. by rewrite BigInt_copy_is_zero.
    + rewrite set_sign_nonzero by (by rewrite BigInt_copy_is_zero).
      unfold reverse_sign. by rewrite BigInt_copy_sign, Ez.
  - unfold flip_sign. destruct (is_zero x) eqn:Ez.
    + by apply set_sign_zero.
    + by apply set_sign_nonzero.
Qed.

End Negation.

(** ** Growth *)

Section Growth.

Context (ws : word_size).

Lemma size_t_add_small a b :
  Z.of_nat (a + b) < 2 ^ SIZE_T_BITS -> size_t_add a b = (a + b)%nat.
Proof.
  intros H. unfold size_t_add. rewrite Z.mod_small by lia. lia.
Qed.

Lemma grow_reg_limb x n i :
  Z.of_nat (size x + n) < 2 ^ SIZE_T_BITS ->
  limb (reg (grow_reg x n)) i = limb (reg x) i.
Proof.
  intros Hfit. unfold grow_reg, resize_reg. cbn [reg set_reg].
  rewrite size_t_add_small by done.
  apply limb_resize_grow. pose proof (round_up_8 (size x + n)) as [H _].
  unfold size in *. lia.
Qed.

Lemma grow_to_limb x n i : limb (reg (grow_to x n)) i = limb (reg x) i.
Proof.
  unfold grow_to. destruct (Nat.ltb_spec (size x) n) as [H|H]; [|done].
  unfold resize_reg. cbn [reg set_reg].
  apply limb_resize_grow. pose proof (round_up_8 n) as [H' _].
  unfold size in *. lia.
Qed.

(** X5. As long as [size() + n], rounded up to the block, fits [size_t],
    growing the storage by [grow_reg] or [grow_to] changes neither the
    integer denoted nor its sign, significant words or bit length, and never
    shrinks the capacity: after [grow_reg(n)] there is room for [n] more
    limbs, after [grow_to(n)] for [n] limbs, and a second [grow_to(n)] does
    nothing. *)
Theorem growth_preserves_value (x : BigInt) (n : nat) :
  Z.of_nat (size x + n) + 8 <= 2 ^ SIZE_T_BITS ->
  (value ws (grow_reg x n) = value ws x /\ value ws (grow_to x n) = value ws x)
  /\ (sig_words (grow_reg x n) = sig_words x /\ sig_words (grow_to x n) = sig_words x)
  /\ (bits ws (grow_reg x n) = bits ws x /\ bits ws (grow_to x n) = bits ws x)
  /\ (size x + n <= size (grow_reg x n))%nat
  /\ (size x <= size (grow_to x n) /\ n <= size (grow_to x n))%nat
  /\ grow_to (grow_to x n) n = grow_to x n.
Proof.
  intros Hfit. assert (Z.of_nat (size x + n) < 2 ^ SIZE_T_BITS) as Hlt by lia.
  pose proof (round_up_8 (size x + n)) as [Hr _].
  pose proof (round_up_8 n) as [Hn _].
  assert (size (grow_to x n) = if (size x <? n)%nat then round_up n 8 else size x) as Hs.
  { unfold grow_to. destruct (size x <? n)%nat; [apply size_resize_reg|done]. }
  split; [|split; [|split; [|split; [|split]]]].
  - unfold value.
    rewrite (magnitude_ext_limb ws _ x (fun i => grow_reg_limb x n i Hlt)).
    rewrite (magnitude_ext_limb ws _ x (grow_to_limb x n)).
    split; [reflexivity|]. unfold grow_to. by destruct (size x <? n)%nat.
  - split; apply sig_words_ext; intros i; [by apply grow_reg_limb | apply grow_to_limb].
  - split; apply bits_ext; intros i; [by apply grow_reg_limb | apply grow_to_limb].
  - unfold grow_reg. rewrite size_resize_reg, size_t_add_small by done. lia.
  - rewrite Hs. destruct (Nat.ltb_spec (size x) n); lia.
  - unfold grow_to at 1. rewrite Hs.
    destruct (Nat.ltb_spec (size x) n) as [H|H].
    + by rewrite (proj2 (Nat.ltb_ge _ _)) by lia.
    + by rewrite (proj2 (Nat.ltb_ge _ _)) by lia.
Qed.

End Growth.

Lemma growth_preserves_value_witness :
  value W32 (grow_reg (BigInt_of_u64 W32 5) 3) = value W32 (BigInt_of_u64 W32 5)
  /\ (size (BigInt_of_u64 W32 5) + 3 <= size (grow_reg (BigInt_of_u64 W32 5) 3))%nat.
Proof.
  destruct (growth_preserves_value W32 (BigInt_of_u64 W32 5) 3) as ((H1 & _) & _ & _ & H2 & _).
  - vm_compute. discriminate.
  - split; [exact H1 | exact H2].
Defined.

(** ** Setting and clearing one bit *)

Section SingleBits.

Context (ws : word_size).

Local Abbreviation W := (MP_WORD_BITS ws).

Lemma same_bit_position (n m : nat) :
  n = m <-> (n / W = m / W /\ n mod W = m mod W)%nat.
Proof.
  pose proof (W_pos ws). split; [by intros ->|]. intros [Hd Hm].
  rewrite (Nat.div_mod_eq n W), (Nat.div_mod_eq m W). by rewrite Hd, Hm.
Qed.

Lemma set_bit_limb x n i :
  limb (reg (set_bit ws x n)) i
  = if (i =? n / W)%nat then Z.lor (limb (reg x) i) (2 ^ Z.of_nat (n mod W))
    else limb (reg x) i.
Proof.
  pose proof (set_bit_in_range ws x n) as Hin.
  unfold set_bit in *. rewrite size_set_reg_insert in Hin. cbn [reg set_reg].
  rewrite bit_mask_eq.
  assert (forall j, limb (reg (if (size x <=? n / W)%nat then grow_to x (n / W + 1) else x)) j
                    = limb (reg x) j) as Hg.
  { intros j. destruct (size x <=? n / W)%nat; [apply grow_to_limb | done]. }
  destruct (Nat.eqb_spec i (n / W)) as [->|Hne].
  - rewrite limb_insert_eq by exact Hin. by rewrite Hg.
  - rewrite limb_insert_ne by done. apply Hg.
Qed.

Lemma clear_bit_limb x n i :
  limb (reg (clear_bit ws x n)) i
  = if (i =? n / W)%nat
    then Z.land (limb (reg x) i) (wtrunc ws (Z.lnot (2 ^ Z.of_nat (n mod W))))
    else limb (reg x) i.
Proof.
  unfold clear_bit. rewrite bit_mask_eq.
  destruct (Nat.ltb_spec (n / W) (size x)) as [Hin|Hout].
  - cbn [reg set_reg]. destruct (Nat.eqb_spec i (n / W)) as [->|Hne].
    + by rewrite limb_insert_eq.
    + by rewrite limb_insert_ne.
  - destruct (Nat.eqb_spec i (n / W)) as [->|Hne]; [|done].
    rewrite limb_ge by exact Hout. by rewrite Z.land_0_l.
Qed.

Lemma get_bit_set_bit x n m :
  get_bit ws (set_bit ws x n) m = (n =? m)%nat || get_bit ws x m.
Proof.
  pose proof (W_pos ws) as HW. pose proof (Nat.mod_upper_bound n W).
  rewrite !get_bit_testbit, !word_at_limb, set_bit_limb.
  destruct (Nat.eqb_spec (m / W) (n / W)) as [Hd|Hd].
  - rewrite Z.lor_spec, Z.pow2_bits_eqb by lia.
    rewrite orb_comm. f_equal.
    destruct (Z.eqb_spec (Z.of_nat (n mod W)) (Z.of_nat (m mod W))) as [E|E];
      destruct (Nat.eqb_spec n m) as [E'|E']; try done.
    + exfalso. apply E', same_bit_position. split; [done|lia].
    + exfalso. apply E. by rewrite E'.
  - destruct (Nat.eqb_spec n m) as [->|]; [done|]. reflexivity.
Qed.

Lemma get_bit_clear_bit x n m :
  get_bit ws (clear_bit ws x n) m = negb (n =? m)%nat && get_bit ws x m.
Proof.
  pose proof (W_pos ws) as HW.
  pose proof (Nat.mod_upper_bound n W). pose proof (Nat.mod_upper_bound m W).
  rewrite !get_bit_testbit, !word_at_limb, clear_bit_limb.
  destruct (Nat.eqb_spec (m / W) (n / W)) as [Hd|Hd].
  - rewrite Z.land_spec. unfold wtrunc.
    rewrite Z.mod_pow2_bits_low, Z.lnot_spec, Z.pow2_bits_eqb by lia.
    rewrite andb_comm. f_equal.
    destruct (Z.eqb_spec (Z.of_nat (n mod W)) (Z.of_nat (m mod W))) as [E|E];
      destruct (Nat.eqb_spec n m) as [E'|E']; try done.
    + exfalso. apply E', same_bit_position. split; [done|lia].
    + exfalso. apply E. by rewrite E'.
  - destruct (Nat.eqb_spec n m) as [->|]; [done|]. reflexivity.
Qed.

Lemma sign_set_bit x n : sign (set_bit ws x n) = sign x.
Proof.
  unfold set_bit, grow_to. destruct (size x <=? n / W)%nat; [|done].
  by destruct (size x <? n / W + 1)%nat.
Qed.

Lemma sign_clear_bit x n : sign (clear_bit ws x n) = sign x.
Proof. unfold clear_bit. by destruct (n / W <? size x)%nat. Qed.

(** X6. [set_bit(n)] sets bit [n] and no other: every other bit reads as
    before, the sign is untouched, and on a value with in-range limbs the
    magnitude becomes the old magnitude with bit [n] set.  Setting a bit that
    is already set changes no bit. *)
Theorem set_bit_only_that_bit (x : BigInt) (n m : nat) :
  wf ws x = true ->
  get_bit ws (set_bit ws x n) m = ((n =? m)%nat || get_bit ws x m)
  /\ sign (set_bit ws x n) = sign x
  /\ magnitude ws (set_bit ws x n) = Z.setbit (magnitude ws x) (Z.of_nat n)
  /\ (get_bit ws x n = true -> magnitude ws (set_bit ws x n) = magnitude ws x).
Proof.
  intros Hwf.
  assert (magnitude ws (set_bit ws x n) = Z.setbit (magnitude ws x) (Z.of_nat n)) as Hm.
  { apply Z.bits_inj'. intros k Hk. rewrite <- (Z2Nat.id k) by done.
    rewrite <- get_bit_magnitude by (by apply set_bit_wf).
    rewrite get_bit_set_bit, Z.setbit_eqb, <- get_bit_magnitude by (done || lia).
    f_equal. destruct (Nat.eqb_spec n (Z.to_nat k)), (Z.eqb_spec (Z.of_nat n) (Z.of_nat (Z.to_nat k)));
      try done; lia. }
  split; [apply get_bit_set_bit|]. split; [apply sign_set_bit|]. split; [done|].
  intros Hb. rewrite Hm. apply Z.bits_inj'. intros k Hk.
  rewrite Z.setbit_eqb by lia.
  destruct (Z.eqb_spec (Z.of_nat n) k) as [<-|]; [|done].
  by rewrite <- get_bit_magnitude, Hb.
Qed.

(** X7. [clear_bit(n)] clears bit [n] and no other: every other bit reads as
    before, the sign is untouched (so clearing the last set bit of a Negative
    value leaves a zero tagged Negative), the capacity is unchanged, and the
    magnitude becomes the old magnitude with bit [n] cleared.  After
    [set_bit(n)] on a value whose bit [n] was clear, [clear_bit(n)] gives
    back the magnitude. *)
Theorem clear_bit_only_that_bit (x : BigInt) (n m : nat) :
  wf ws x = true ->
  get_bit ws (clear_bit ws x n) m = (negb (n =? m)%nat && get_bit ws x m)
  /\ sign (clear_bit ws x n) = sign x
  /\ size (clear_bit ws x n) = size x
  /\ magnitude ws (clear_bit ws x n) = Z.clearbit (magnitude ws x) (Z.of_nat n)
  /\ (get_bit ws x n = false ->
      magnitude ws (clear_bit ws (set_bit ws x n) n) = magnitude ws x).
Proof.
  intros Hwf.
  assert (forall y, wf ws y = true ->
            magnitude ws (clear_bit ws y n) = Z.clearbit (magnitude ws y) (Z.of_nat n)) as Hm.
  { intros y Hy. apply Z.bits_inj'. intros k Hk. rewrite <- (Z2Nat.id k) by done.
    rewrite <- get_bit_magnitude by (by apply clear_bit_wf).
    rewrite get_bit_clear_bit, Z.clearbit_eqb, <- get_bit_magnitude by (done || lia).
    rewrite andb_comm. f_equal.
    destruct (Nat.eqb_spec n (Z.to_nat k)), (Z.eqb_spec (Z.of_nat n) (Z.of_nat (Z.to_nat k)));
      try done; lia. }
  split; [apply get_bit_clear_bit|]. split; [apply sign_clear_bit|].
  split; [|split; [by apply Hm|]].
  - unfold clear_bit. destruct (n / MP_WORD_BITS ws <? size x)%nat; [|done].
    apply size_set_reg_insert.
  - intros Hb. apply magnitude_ext; [by apply clear_bit_wf, set_bit_wf | done |].
    intros k. rewrite !byte_at_magnitude by (done || by apply clear_bit_wf, set_bit_wf).
    do 2 f_equal. apply Z.bits_inj'. intros j Hj. rewrite <- (Z2Nat.id j) by done.
    rewrite <- !get_bit_magnitude by (done || by apply clear_bit_wf, set_bit_wf).
    rewrite get_bit_clear_bit, get_bit_set_bit.
    destruct (Nat.eqb_spec n (Z.to_nat j)) as [<-|]; [by rewrite Hb|done].
Qed.

End SingleBits.

Lemma set_bit_only_that_bit_witness :
  magnitude W32 (set_bit W32 (BigInt_of_u64 W32 5) 40) = Z.setbit 5 40.
Proof.
  destruct (set_bit_only_that_bit W32 (BigInt_of_u64 W32 5) 40 0) as (_ & _ & H & _).
  - reflexivity.
  - exact H.
Defined.

Lemma clear_bit_only_that_bit_witness :
  magnitude W32 (clear_bit W32 (set_bit W32 (BigInt_of_u64 W32 5) 40) 40)
  = magnitude W32 (BigInt_of_u64 W32 5).
Proof.
  destruct (clear_bit_only_that_bit W32 (BigInt_of_u64 W32 5) 40 0) as (_ & _ & _ & _ & H).
  - reflexivity.
  - apply H. reflexivity.
Defined.

(** ** The bit length *)

Section ExactBitLength.

Context (ws : word_size).

Local Abbreviation W := (MP_WORD_BITS ws).

Lemma bits_scan_positive w t :
  0 < w < 2 ^ Z.of_nat t -> (0 < bits_scan w (Z.shiftl 1 (Z.of_nat t - 1)) t)%nat.
Proof.
  intros Hw. destruct (bits_scan_bound w t ltac:(lia)) as [Hb _].
  destruct (bits_scan w _ t); [cbn in Hb; lia | lia].
Qed.

(** For a non-zero value the bit below [bits()] is set. *)
Lemma magnitude_ge_bits x :
  wf ws x = true -> 0 < magnitude ws x ->
  (0 < bits ws x)%nat /\ 2 ^ (Z.of_nat (bits ws x) - 1) <= magnitude ws x.
Proof.
  intros Hwf Hpos. unfold bits, magnitude in *.
  destruct (Nat.eqb_spec (sig_words x) 0) as [E|E];
    [rewrite E, take_0 in Hpos; cbn [limbs_value] in Hpos; lia|].
  pose proof (sig_words_le x) as Hle. unfold size in Hle.
  assert (sig_words x = S (sig_words x - 1)) as Hs by lia.
  pose proof (sig_words_top x ltac:(lia)) as Htop.
  set (k := (sig_words x - 1)%nat) in *. rewrite Hs in *.
  assert (reg x !! k = Some (limb (reg x) k)) as Hk.
  { unfold limb. rewrite nth_lookup.
    destruct (lookup_lt_is_Some_2 (reg x) k) as [w ->]; [lia|done]. }
  rewrite (take_S_r _ _ _ Hk), limbs_value_app. cbn [limbs_value].
  rewrite length_take, Nat.min_l by lia. rewrite word_at_limb.
  pose proof (wf_limbs_limb ws (reg x) k Hwf) as Hw.
  pose proof (bits_scan_positive (limb (reg x) k) W ltac:(lia)) as Hb.
  pose proof (bits_scan_top (limb (reg x) k) W Hb) as Hbit.
  fold (MP_WORD_TOP_BIT ws) in Hb, Hbit.
  set (b := bits_scan (limb (reg x) k) (MP_WORD_TOP_BIT ws) W) in *.
  split; [lia|].
  assert (2 ^ (Z.of_nat b - 1) <= limb (reg x) k) as Hge.
  { apply Z.testbit_true in Hbit; [|lia].
    assert (0 < 2 ^ (Z.of_nat b - 1)) by (apply Z.pow_pos_nonneg; lia).
    destruct (Z.le_gt_cases (2 ^ (Z.of_nat b - 1)) (limb (reg x) k)) as [|Hlt]; [done|].
    rewrite Z.div_small, Z.mod_0_l in Hbit by lia. lia. }
  pose proof (limbs_value_nonneg ws (take k (reg x)) (wf_limbs_take ws k _ Hwf)) as Hlow.
  replace (Z.of_nat (k * W + b) - 1) with (Z.of_nat W * Z.of_nat k + (Z.of_nat b - 1)) by lia.
  rewrite Z.pow_add_r by lia.
  assert (0 < 2 ^ (Z.of_nat W * Z.of_nat k)) by (apply Z.pow_pos_nonneg; lia).
  rewrite Z.mul_0_r, Z.add_0_r.
  generalize dependent (2 ^ (Z.of_nat W * Z.of_nat k)).
  generalize dependent (2 ^ (Z.of_nat b - 1)). intros. nia.
Qed.

Lemma bits_log2 x :
  wf ws x = true ->
  bits ws x = if magnitude ws x =? 0 then 0%nat else S (Z.to_nat (Z.log2 (magnitude ws x))).
Proof.
  intros Hwf. pose proof (magnitude_nonneg ws x Hwf) as H0.
  pose proof (magnitude_lt_bits ws x Hwf) as Hlt.
  destruct (Z.eqb_spec (magnitude ws x) 0) as [E|E].
  - apply (is_zero_magnitude ws x Hwf) in E. unfold is_zero in E. apply Nat.eqb_eq in E.
    unfold bits. by rewrite E.
  - destruct (magnitude_ge_bits x Hwf ltac:(lia)) as [Hb Hge].
    rewrite (Z.log2_unique (magnitude ws x) (Z.of_nat (bits ws x) - 1)); [lia|lia|].
    split; [done|].
    by replace (Z.succ (Z.of_nat (bits ws x) - 1)) with (Z.of_nat (bits ws x)) by lia.
Qed.

(** X8. [bits()] is the bit length of the magnitude and [bytes()] its byte
    length: both are 0 exactly for a zero value, and otherwise
    [bits() = log2(magnitude) + 1] and [bytes() = log2(magnitude) / 8 + 1].
    The bit just below [bits()] is set and no bit at or above it is. *)
Theorem bits_is_bit_length (x : BigInt) (n : nat) :
  wf ws x = true ->
  bits ws x = (if magnitude ws x =? 0 then 0%nat else S (Z.to_nat (Z.log2 (magnitude ws x))))
  /\ bytes ws x
     = (if magnitude ws x =? 0 then 0%nat else S (Z.to_nat (Z.log2 (magnitude ws x) / 8)))
  /\ ((0 < bits ws x)%nat -> get_bit ws x (bits ws x - 1) = true)
  /\ ((bits ws x <= n)%nat -> get_bit ws x n = false).
Proof.
  intros Hwf. pose proof (magnitude_nonneg ws x Hwf) as H0.
  pose proof (magnitude_lt_bits ws x Hwf) as Hlt.
  pose proof (bits_log2 x Hwf) as Hb.
  split; [done|]. split; [|split].
  - unfold bytes. rewrite Hb. destruct (magnitude ws x =? 0); [reflexivity|].
    pose proof (Z.log2_nonneg (magnitude ws x)) as Hl.
    rewrite Z2Nat.inj_div by lia. change (Z.to_nat 8) with 8%nat.
    replace (S (Z.to_nat (Z.log2 (magnitude ws x))) + 7)%nat
      with (Z.to_nat (Z.log2 (magnitude ws x)) + 1 * 8)%nat by lia.
    rewrite Nat.div_add by lia. lia.
  - intros Hpos. rewrite get_bit_magnitude by done.
    assert (magnitude ws x <> 0) as Hne.
    { intros E. rewrite E in Hb. cbn in Hb. lia. }
    rewrite Hb, (proj2 (Z.eqb_neq _ _) Hne).
    replace (Z.of_nat (S (Z.to_nat (Z.log2 (magnitude ws x))) - 1))
      with (Z.log2 (magnitude ws x))
      by (pose proof (Z.log2_nonneg (magnitude ws x)); lia).
    apply Z.bit_log2. lia.
  - intros Hn. rewrite get_bit_magnitude by done.
    destruct (Z.eq_dec (magnitude ws x) 0) as [->|Hne]; [apply Z.bits_0|].
    apply Z.bits_above_log2; [done|].
    rewrite Hb, (proj2 (Z.eqb_neq _ _) Hne) in Hn.
    pose proof (Z.log2_nonneg (magnitude ws x)). lia.
Qed.

End ExactBitLength.

Lemma bits_is_bit_length_witness :
  get_bit W8 (BigInt_of_u64 W8 1000) (bits W8 (BigInt_of_u64 W8 1000) - 1) = true
  /\ get_bit W8 (BigInt_of_u64 W8 1000) 10 = false.
Proof.
  destruct (bits_is_bit_length W8 (BigInt_of_u64 W8 1000) 10) as (_ & _ & H1 & H2).
  - reflexivity.
  - split; [apply H1 | apply H2]; vm_compute; lia.
Defined.

(** ** [get_substring] and the magnitude *)

Section Substring.

Context (ws : word_size).

Lemma be_combine_testbit (bs : list Z) (m : nat) :
  Forall is_byte bs -> (m / 8 < length bs)%nat ->
  Z.testbit (be_combine bs) (Z.of_nat m)
  = Z.testbit (nth (length bs - 1 - m / 8) bs 0) (Z.of_nat (m mod 8)).
Proof.
  intros Hbs Hm. pose proof (be_combine_byte bs (m / 8) Hbs) as E.
  rewrite (proj2 (Nat.ltb_lt _ _) Hm) in E. rewrite <- E.
  pose proof (Nat.div_mod_eq m 8). pose proof (Nat.mod_upper_bound m 8).
  rewrite Z.mod_pow2_bits_low, Z.div_pow2_bits by lia. f_equal. lia.
Qed.

Lemma window_bytes_nth x n k :
  (k <= 7)%nat -> nth (7 - k) (window_bytes ws x n) 0 = byte_at ws x (n + k).
Proof.
  intros Hk. do 8 (destruct k as [|k]; [reflexivity|]). lia.
Qed.

(** X9. For [length <= 30], [get_substring(offset, length)] returns the
    [length] bits of the magnitude that start at bit [offset]: the 8-byte
    window always covers them. *)
Theorem get_substring_bits (x : BigInt) (offset len : nat) :
  wf ws x = true ->
  (len <= 30)%nat ->
  get_substring ws x offset len
  = Value ((magnitude ws x / 2 ^ Z.of_nat offset) mod 2 ^ Z.of_nat len).
Proof.
  intros Hwf Hlen. rewrite get_substring_defined by done. f_equal.
  unfold substring_of_window. apply Z.bits_inj'. intros i Hi.
  destruct (Z.lt_ge_cases i (Z.of_nat len)) as [Hlt|Hge].
  2:{ by rewrite !Z.mod_pow2_bits_high by lia. }
  rewrite !Z.mod_pow2_bits_low, !Z.div_pow2_bits by lia.
  pose proof (Nat.div_mod_eq offset 8) as Eo. pose proof (Nat.mod_upper_bound offset 8) as Ho.
  set (m := (offset mod 8 + Z.to_nat i)%nat).
  replace (i + Z.of_nat (offset mod 8)) with (Z.of_nat m) by lia.
  pose proof (Nat.div_mod_eq m 8) as Em. pose proof (Nat.mod_upper_bound m 8) as Hm.
  assert (m / 8 <= 7)%nat as Hk by (apply Nat.Div0.div_le_upper_bound; lia).
  rewrite be_combine_testbit.
  - change (length (window_bytes ws x (offset / 8))) with 8%nat.
    replace (8 - 1 - m / 8)%nat with (7 - m / 8)%nat by lia.
    rewrite window_bytes_nth by done.
    rewrite byte_at_testbit by done.
    rewrite (proj2 (Nat.ltb_lt _ _)) by lia. f_equal. lia.
  - unfold window_bytes. apply Forall_fmap, Forall_forall. intros k _. apply byte_at_is_byte.
  - change (length (window_bytes ws x (offset / 8))) with 8%nat. lia.
Qed.

End Substring.

Lemma get_substring_bits_witness :
  get_substring W32 (BigInt_of_u64 W32 81985529216486895) 12 20
  = Value ((magnitude W32 (BigInt_of_u64 W32 81985529216486895) / 2 ^ Z.of_nat 12)
             mod 2 ^ Z.of_nat 20).
Proof.
  apply (get_substring_bits W32 (BigInt_of_u64 W32 81985529216486895) 12 20).
  - reflexivity.
  - lia.
Defined.

(** ** Decoding, and encoding what was decoded *)

Section DecodeEncode.

Context (ws : word_size).

Local Abbreviation W := (MP_WORD_BITS ws).
Local Abbreviation WB := (WORD_BYTES ws).

Lemma all_bytes_nth buf k : all_bytes buf = true -> is_byte (nth k buf 0).
Proof.
  intros H. unfold all_bytes in H. rewrite forallb_forall in H.
  destruct (nth_in_or_default k buf 0) as [Hin| ->].
  - apply H in Hin. unfold is_byte. lia.
  - unfold is_byte. lia.
Qed.

Lemma all_bytes_take buf len : all_bytes buf = true -> Forall is_byte (take len buf).
Proof.
  intros H. apply Forall_take, Forall_forall. intros b Hb.
  unfold all_bytes in H. rewrite forallb_forall in H.
  apply list_elem_of_In, H in Hb. unfold is_byte. lia.
Qed.

Lemma binary_decode_magnitude y buf len :
  all_bytes buf = true -> (len <= length buf)%nat ->
  magnitude ws (binary_decode ws y buf len) = be_combine (take len buf).
Proof.
  intros Hb Hlen.
  pose proof (be_combine_range _ (all_bytes_take buf len Hb)) as Hr.
  rewrite length_take, Nat.min_l in Hr by lia.
  apply Z.bits_inj'. intros m Hm. rewrite <- (Z2Nat.id m) by done.
  set (k := Z.to_nat m).
  pose proof (Nat.div_mod_eq k 8). pose proof (Nat.mod_upper_bound k 8).
  pose proof (byte_at_testbit ws (binary_decode ws y buf len) (k / 8) (k mod 8)
                (binary_decode_wf ws y buf len)) as E.
  rewrite (proj2 (Nat.ltb_lt _ _)) in E by lia.
  replace (8 * (k / 8) + k mod 8)%nat with k in E by lia. rewrite <- E.
  rewrite binary_decode_byte_at by (intros j _; by apply all_bytes_nth).
  destruct (Nat.ltb_spec (k / 8) len) as [Hlt|Hge].
  - rewrite be_combine_testbit
      by (rewrite ?length_take, ?Nat.min_l by lia; (by apply all_bytes_take) || lia).
    rewrite length_take, Nat.min_l by lia.
    by rewrite nth_firstn, (proj2 (Nat.ltb_lt _ _)) by lia.
  - rewrite Z.bits_0. symmetry.
    rewrite <- (Z.mod_small (be_combine (take len buf)) (2 ^ (8 * Z.of_nat len))).
    + apply Z.mod_pow2_bits_high. lia.
    + change 256 with (2 ^ 8) in Hr. by rewrite <- Z.pow_mul_r in Hr by lia.
Qed.

(** X10. [binary_decode] reads its buffer as one big-endian number: the
    magnitude of the result is the value of the first [length] bytes, most
    significant first, whatever the receiver held before.  The limbs are in
    range and the capacity is [length / sizeof(word) + 1] rounded up to the
    block.  The overload taking a byte vector decodes all of it. *)
Theorem binary_decode_value (y : BigInt) (buf : list Z) (len : nat) :
  all_bytes buf = true ->
  (len <= length buf)%nat ->
  magnitude ws (binary_decode ws y buf len) = be_combine (take len buf)
  /\ magnitude ws (binary_decode_region ws y buf) = be_combine buf
  /\ wf ws (binary_decode ws y buf len) = true
  /\ size (binary_decode ws y buf len) = round_up (len / WB + 1) 8
  /\ reg (binary_decode ws y buf len) = reg (binary_decode ws fresh buf len).
Proof.
  intros Hb Hlen. split; [by apply binary_decode_magnitude|]. split; [|split; [|split]].
  - unfold binary_decode_region. rewrite binary_decode_magnitude by done.
    by rewrite take_ge by lia.
  - apply binary_decode_wf.
  - unfold size. rewrite binary_decode_reg, length_insert.
    destruct (foldl_insert_each
                (fun j a => foldl (shift_in ws) a (chunk_bytes ws buf len j))
                (replicate (round_up (len / WB + 1) 8) 0) (len / WB)) as [-> _].
    apply length_replicate.
  - by rewrite !binary_decode_reg.
Qed.

Lemma bytes_binary_decode_le y buf len :
  all_bytes buf = true -> (len <= length buf)%nat ->
  (bytes ws (binary_decode ws y buf len) <= len)%nat.
Proof.
  intros Hb Hlen. set (d := binary_decode ws y buf len).
  pose proof (binary_decode_wf ws y buf len) as Hwf. fold d in Hwf.
  pose proof (binary_decode_magnitude y buf len Hb Hlen) as Hm. fold d in Hm.
  pose proof (be_combine_range _ (all_bytes_take buf len Hb)) as Hr.
  rewrite length_take, Nat.min_l, <- Hm in Hr by lia.
  pose proof (bytes_bits ws d) as Hbb.
  destruct (Z.eq_dec (magnitude ws d) 0) as [E|E].
  - pose proof (bits_log2 ws d Hwf) as Hl. rewrite E in Hl. cbn in Hl. lia.
  - destruct (magnitude_ge_bits ws d Hwf ltac:(lia)) as [Hpos Hge].
    change 256 with (2 ^ 8) in Hr. rewrite <- Z.pow_mul_r in Hr by lia.
    assert (Z.of_nat (bits ws d) - 1 < 8 * Z.of_nat len) as Hlt.
    { apply (Z.pow_lt_mono_r_iff 2); lia. }
    lia.
Qed.

(** X11. Encoding what was decoded gives the buffer back without its
    leading zero bytes: the decoded value needs at most [length] bytes, the
    bytes [binary_encode] writes are the last [bytes()] bytes of the buffer,
    and the bytes before them are all zero.  A buffer that starts with a
    non-zero byte comes back unchanged. *)
Theorem binary_encode_decode (y : BigInt) (buf output : list Z) (len : nat) :
  all_bytes buf = true ->
  (len <= length buf)%nat ->
  (bytes ws (binary_decode ws y buf len) <= length output)%nat ->
  (bytes ws (binary_decode ws y buf len) <= len)%nat
  /\ take (bytes ws (binary_decode ws y buf len))
          (binary_encode ws (binary_decode ws y buf len) output)
     = drop (len - bytes ws (binary_decode ws y buf len)) (take len buf)
  /\ take (len - bytes ws (binary_decode ws y buf len)) buf
     = replicate (len - bytes ws (binary_decode ws y buf len)) 0
  /\ ((0 < len)%nat -> nth 0 buf 0 <> 0 ->
      take len (binary_encode ws (binary_decode ws y buf len) output) = take len buf).
Proof.
  intros Hb Hlen Hout. set (d := binary_decode ws y buf len) in *.
  pose proof (binary_decode_wf ws y buf len) as Hwf. fold d in Hwf.
  pose proof (bytes_binary_decode_le y buf len Hb Hlen) as HB. fold d in HB.
  assert (forall n, byte_at ws d n = if (n <? len)%nat then nth (len - 1 - n) buf 0 else 0)
    as Hbyte.
  { intros n. apply binary_decode_byte_at. intros j _. by apply all_bytes_nth. }
  assert (take (bytes ws d) (binary_encode ws d output) = drop (len - bytes ws d) (take len buf))
    as Htake.
  { apply (nth_ext _ _ 0 0).
    - rewrite length_take, length_binary_encode, length_drop, length_take by done. lia.
    - intros i Hi. rewrite length_take, length_binary_encode in Hi by done.
      rewrite nth_firstn, (proj2 (Nat.ltb_lt i (bytes ws d))) by lia.
      rewrite binary_encode_nth, (proj2 (Nat.ltb_lt i (bytes ws d))) by (done || lia).
      rewrite Hbyte, (proj2 (Nat.ltb_lt _ _)) by lia.
      rewrite nth_skipn, nth_firstn, (proj2 (Nat.ltb_lt _ _)) by lia.
      f_equal. lia. }
  assert (take (len - bytes ws d) buf = replicate (len - bytes ws d) 0) as Hzero.
  { apply (nth_ext _ _ 0 0).
    - rewrite length_take, length_replicate. lia.
    - intros i Hi. rewrite length_take in Hi.
      rewrite nth_firstn, (proj2 (Nat.ltb_lt i (len - bytes ws d))) by lia.
      fold (limb (replicate (len - bytes ws d) 0) i). rewrite limb_replicate.
      pose proof (Hbyte (len - 1 - i)%nat) as E.
      rewrite (proj2 (Nat.ltb_lt _ _)) in E by lia.
      replace (len - 1 - (len - 1 - i))%nat with i in E by lia. rewrite <- E.
      apply byte_at_above_bytes; [done|lia]. }
  split; [done|]. split; [done|]. split; [done|].
  intros Hpos Hnz.
  assert (bytes ws d = len) as Heq.
  { destruct (decide (bytes ws d = len)) as [|Hne]; [done|]. exfalso. apply Hnz.
    apply (f_equal (fun l => nth 0 l 0)) in Hzero.
    rewrite nth_firstn, (proj2 (Nat.ltb_lt 0 (len - bytes ws d))) in Hzero by lia.
    rewrite Hzero. apply (limb_replicate (len - bytes ws d) 0). }
  rewrite Heq in Htake. rewrite Htake. by rewrite Nat.sub_diag.
Qed.

End DecodeEncode.

Lemma binary_decode_value_witness :
  magnitude W16 (binary_decode W16 (BigInt_of_u64 W16 77) [0; 1; 2; 3; 4; 5; 6] 5)
  = be_combine (take 5 [0; 1; 2; 3; 4; 5; 6]).
Proof.
  apply (binary_decode_value W16 (BigInt_of_u64 W16 77) [0; 1; 2; 3; 4; 5; 6] 5).
  - reflexivity.
  - cbn. lia.
Defined.

Lemma binary_encode_decode_witness :
  take 3 (binary_encode W32 (binary_decode W32 fresh [9; 0; 200] 3) [0; 0; 0; 0])
  = take 3 [9; 0; 200].
Proof.
  apply (binary_encode_decode W32 fresh [9; 0; 200] [0; 0; 0; 0] 3).
  - reflexivity.
  - cbn. lia.
  - vm_compute. lia.
  - lia.
  - cbn. lia.
Defined.

(** ** The signed comparison and the order of the integers *)

Section SignedOrder.

Context (ws : word_size).

Lemma magnitude_cmp_antisym x n : magnitude_cmp ws n x = - magnitude_cmp ws x n.
Proof.
  unfold magnitude_cmp. rewrite (Z.compare_antisym (magnitude ws x) (magnitude ws n)).
  by destruct (magnitude ws x ?= magnitude ws n).
Qed.

Lemma cmp_signed x n :
  cmp ws x n true
  = match sign x, sign n with
    | Negative, Positive => -1
    | Positive, Negative => 1
    | Negative, Negative => - magnitude_cmp ws x n
    | Positive, Positive => magnitude_cmp ws x n
    end.
Proof.
  unfold cmp, is_positive, is_negative. rewrite bigint_cmp_magnitude.
  by destruct (sign x), (sign n).
Qed.

Lemma nonzero_magnitude_pos x :
  wf ws x = true -> is_zero x = false -> 0 < magnitude ws x.
Proof.
  intros Hwf Hz. pose proof (magnitude_nonneg ws x Hwf).
  destruct (Z.eq_dec (magnitude ws x) 0) as [E|E]; [|lia].
  apply (is_zero_magnitude ws x Hwf) in E. congruence.
Qed.

(** X12. On values whose zero is tagged Positive, [cmp] with [check_signs]
    is the three-way comparison of the integers denoted.  In every state,
    swapping the operands negates the result, with or without
    [check_signs]. *)
Theorem cmp_is_integer_order (x n : BigInt) (check_signs : bool) :
  (wf ws x = true -> wf ws n = true ->
   (is_zero x = true -> sign x = Positive) ->
   (is_zero n = true -> sign n = Positive) ->
   cmp ws x n true
   = match value ws x ?= value ws n with Lt => -1 | Eq => 0 | Gt => 1 end)
  /\ cmp ws n x check_signs = - cmp ws x n check_signs.
Proof.
  split.
  - intros Hx Hn Nx Nn. rewrite cmp_signed. unfold value, magnitude_cmp.
    pose proof (magnitude_nonneg ws x Hx). pose proof (magnitude_nonneg ws n Hn).
    destruct (sign x) eqn:Sx, (sign n) eqn:Sn.
    + rewrite Z.compare_opp.
      rewrite (Z.compare_antisym (magnitude ws x) (magnitude ws n)).
      by destruct (magnitude ws x ?= magnitude ws n).
    + assert (0 < magnitude ws x).
      { apply nonzero_magnitude_pos; [done|]. destruct (is_zero x); [|done].
        specialize (Nx eq_refl). congruence. }
      by rewrite (proj2 (Z.compare_lt_iff _ _)) by lia.
    + assert (0 < magnitude ws n).
      { apply nonzero_magnitude_pos; [done|]. destruct (is_zero n); [|done].
        specialize (Nn eq_refl). congruence. }
      by rewrite (proj2 (Z.compare_gt_iff _ _)) by lia.
    + reflexivity.
  - destruct check_signs.
    + rewrite !cmp_signed, (magnitude_cmp_antisym x n).
      destruct (sign x), (sign n); lia.
    + rewrite !cmp_unsigned. apply magnitude_cmp_antisym.
Qed.

End SignedOrder.

Lemma cmp_is_integer_order_witness :
  cmp W32 (negate (BigInt_of_u64 W32 7)) (negate (BigInt_of_u64 W32 9)) true
  = match value W32 (negate (BigInt_of_u64 W32 7)) ?= value W32 (negate (BigInt_of_u64 W32 9))
    with Lt => -1 | Eq => 0 | Gt => 1 end.
Proof.
  apply (proj1 (cmp_is_integer_order W32 (negate (BigInt_of_u64 W32 7))
                  (negate (BigInt_of_u64 W32 9)) true)).
  - reflexivity.
  - reflexivity.
  - vm_compute. discriminate.
  - vm_compute. discriminate.
Defined.

(** ** More on [mask_bits] *)

Section MaskBitsMore.

Context (ws : word_size).

Local Abbreviation W := (MP_WORD_BITS ws).

Lemma mask_bits_sign x n : (0 < n)%nat -> sign (mask_bits ws x n) = sign x.
Proof.
  intros Hn. unfold mask_bits. rewrite (proj2 (Nat.eqb_neq n 0)) by lia.
  destruct (bits ws x <=? n)%nat; [done|].
  destruct (n / W <? size x)%nat; [|done].
  by rewrite (foldl_set_reg (fun j r => <[j := 0]> r)).
Qed.

Lemma mask_bits_size x n : (0 < n)%nat -> size (mask_bits ws x n) = size x.
Proof.
  intros Hn. destruct (decide (n < bits ws x)%nat) as [Hb|Hb].
  - by destruct (mask_bits_limb ws x n 0 ltac:(lia)) as [-> _].
  - unfold mask_bits. rewrite (proj2 (Nat.eqb_neq n 0)) by lia.
    by rewrite (proj2 (Nat.leb_le (bits ws x) n)) by lia.
Qed.

(** X13. For [n > 0], [mask_bits(n)] never touches the sign tag or the
    capacity.  So when the low [n] bits of a Negative value are all zero,
    the result is a zero that is still tagged Negative: unlike the
    sign-setting operations, [mask_bits] does not normalise. *)
Theorem mask_bits_keeps_sign (x : BigInt) (n : nat) :
  wf ws x = true ->
  (0 < n)%nat ->
  sign (mask_bits ws x n) = sign x
  /\ size (mask_bits ws x n) = size x
  /\ (sign x = Negative -> magnitude ws x mod 2 ^ Z.of_nat n = 0 ->
      is_zero (mask_bits ws x n) = true /\ sign (mask_bits ws x n) = Negative).
Proof.
  intros Hwf Hn. split; [by apply mask_bits_sign|]. split; [by apply mask_bits_size|].
  intros Hs Hm. split; [|by rewrite mask_bits_sign].
  apply (is_zero_magnitude ws); [by apply mask_bits_wf|].
  by rewrite mask_bits_magnitude.
Qed.

(** X14. After [mask_bits(n)] bit [m] reads as before when [m < n] and as
    clear otherwise, the value has at most [n] bits, and masking twice is
    masking once with the smaller count. *)
Theorem mask_bits_bitwise (x : BigInt) (n m : nat) :
  wf ws x = true ->
  get_bit ws (mask_bits ws x n) m = ((m <? n)%nat && get_bit ws x m)
  /\ (bits ws (mask_bits ws x n) <= n)%nat
  /\ magnitude ws (mask_bits ws (mask_bits ws x n) m)
     = magnitude ws x mod 2 ^ Z.of_nat (Nat.min n m).
Proof.
  intros Hwf. pose proof (mask_bits_wf ws x n Hwf) as Hwf'.
  pose proof (magnitude_nonneg ws x Hwf) as H0.
  split; [|split].
  - rewrite !get_bit_magnitude, mask_bits_magnitude by done.
    destruct (Nat.ltb_spec m n).
    + by rewrite Z.mod_pow2_bits_low by lia.
    + by rewrite Z.mod_pow2_bits_high by lia.
  - pose proof (mask_bits_magnitude ws x n Hwf) as Hm.
    assert (0 < 2 ^ Z.of_nat n) by (apply Z.pow_pos_nonneg; lia).
    pose proof (Z.mod_pos_bound (magnitude ws x) (2 ^ Z.of_nat n) ltac:(lia)) as Hr.
    rewrite <- Hm in Hr.
    destruct (Z.eq_dec (magnitude ws (mask_bits ws x n)) 0) as [E|E].
    + pose proof (bits_log2 ws _ Hwf') as Hl. rewrite E in Hl. cbn in Hl. lia.
    + destruct (magnitude_ge_bits ws _ Hwf' ltac:(lia)) as [Hpos Hge].
      assert (Z.of_nat (bits ws (mask_bits ws x n)) - 1 < Z.of_nat n).
      { apply (Z.pow_lt_mono_r_iff 2); lia. }
      lia.
  - rewrite !mask_bits_magnitude by done.
    apply Z.bits_inj'. intros k Hk.
    destruct (Z.lt_ge_cases k (Z.of_nat (Nat.min n m))).
    + by rewrite !Z.mod_pow2_bits_low by lia.
    + rewrite (Z.mod_pow2_bits_high _ (Z.of_nat (Nat.min n m))) by lia.
      destruct (Z.lt_ge_cases k (Z.of_nat m)).
      * rewrite Z.mod_pow2_bits_low by lia. apply Z.mod_pow2_bits_high. lia.
      * apply Z.mod_pow2_bits_high. lia.
Qed.

End MaskBitsMore.

Lemma mask_bits_keeps_sign_witness :
  is_zero (mask_bits W32 (negate (BigInt_of_u64 W32 4096)) 12) = true
  /\ sign (mask_bits W32 (negate (BigInt_of_u64 W32 4096)) 12) = Negative.
Proof.
  destruct (mask_bits_keeps_sign W32 (negate (BigInt_of_u64 W32 4096)) 12) as (_ & _ & H).
  - reflexivity.
  - lia.
  - apply H; reflexivity.
Defined.

Lemma mask_bits_bitwise_witness :
  (bits W8 (mask_bits W8 (BigInt_of_u64 W8 65535) 11) <= 11)%nat.
Proof.
  destruct (mask_bits_bitwise W8 (BigInt_of_u64 W8 65535) 11 0) as (_ & H & _).
  - reflexivity.
  - exact H.
Defined.

(** ** Bits and bytes *)

Section BitsOfBytes.

Context (ws : word_size).

(** X15. The two accessors agree in every state: bit [n] is bit [n mod 8]
    of byte [n / 8], and a byte is made of its eight bits. *)
Theorem get_bit_of_byte_at (x : BigInt) (n : nat) :
  get_bit ws x n = Z.testbit (byte_at ws x (n / 8)) (Z.of_nat (n mod 8))
  /\ 0 <= byte_at ws x n < 256.
Proof.
  split; [|apply byte_at_is_byte].
  pose proof (Nat.div_mod_eq n 8) as E. pose proof (Nat.mod_upper_bound n 8) as H.
  rewrite get_bit_testbit, word_at_limb, byte_at_limb.
  rewrite Z.mod_pow2_bits_low, Z.div_pow2_bits by lia.
  destruct (byte_bit_position ws (n / 8) (n mod 8) ltac:(lia)) as [Hd Hm].
  rewrite <- E in Hd, Hm. rewrite Hd, Hm. f_equal. lia.
Qed.

End BitsOfBytes.

(** ** Encoded sizes *)

Section EncodedSize.

Context (ws : word_size) (decimal_estimate : nat -> nat).

Lemma pow2_le_bits x k :
  wf ws x = true -> (bits ws x <= k)%nat -> magnitude ws x < 2 ^ Z.of_nat k.
Proof.
  intros Hwf Hk. pose proof (magnitude_lt_bits ws x Hwf).
  assert (2 ^ Z.of_nat (bits ws x) <= 2 ^ Z.of_nat k) by (apply Z.pow_le_mono_r; lia).
  lia.
Qed.

(** X16. The sizes [encoded_size] returns for the binary, hexadecimal and
    octal encodings are enough digits for the magnitude, and for binary and
    octal they are exactly the number of digits of a non-zero magnitude. *)
Theorem encoded_size_enough (x : BigInt) :
  wf ws x = true ->
  magnitude ws x < 256 ^ Z.of_nat (encoded_size ws decimal_estimate x Binary)
  /\ magnitude ws x < 16 ^ Z.of_nat (encoded_size ws decimal_estimate x Hexadecimal)
  /\ magnitude ws x < 8 ^ Z.of_nat (encoded_size ws decimal_estimate x Octal)
  /\ (0 < magnitude ws x ->
      256 ^ (Z.of_nat (encoded_size ws decimal_estimate x Binary) - 1) <= magnitude ws x
      /\ 8 ^ (Z.of_nat (encoded_size ws decimal_estimate x Octal) - 1) <= magnitude ws x).
Proof.
  intros Hwf. cbn [encoded_size].
  pose proof (bytes_bits ws x) as Hb.
  pose proof (Nat.div_mod_eq (bits ws x + 2) 3) as E3.
  pose proof (Nat.mod_upper_bound (bits ws x + 2) 3) as H3.
  assert (forall a, 0 <= a -> 256 ^ a = 2 ^ (8 * a)) as P256
    by (intros a Ha; change 256 with (2 ^ 8); by rewrite <- Z.pow_mul_r by lia).
  assert (forall a, 0 <= a -> 16 ^ a = 2 ^ (4 * a)) as P16
    by (intros a Ha; change 16 with (2 ^ 4); by rewrite <- Z.pow_mul_r by lia).
  assert (forall a, 0 <= a -> 8 ^ a = 2 ^ (3 * a)) as P8
    by (intros a Ha; change 8 with (2 ^ 3); by rewrite <- Z.pow_mul_r by lia).
  split; [|split; [|split]].
  - rewrite P256 by lia.
    replace (8 * Z.of_nat (bytes ws x)) with (Z.of_nat (8 * bytes ws x)) by lia.
    apply pow2_le_bits; [done|lia].
  - rewrite P16 by lia.
    replace (4 * Z.of_nat (2 * bytes ws x)) with (Z.of_nat (8 * bytes ws x)) by lia.
    apply pow2_le_bits; [done|lia].
  - rewrite P8 by lia.
    replace (3 * Z.of_nat ((bits ws x + 2) / 3)) with (Z.of_nat (3 * ((bits ws x + 2) / 3))) by lia.
    apply pow2_le_bits; [done|lia].
  - intros Hpos. destruct (magnitude_ge_bits ws x Hwf Hpos) as [Hbp Hge].
    split.
    + rewrite P256 by lia. eapply Z.le_trans; [|exact Hge]. apply Z.pow_le_mono_r; lia.
    + rewrite P8 by lia. eapply Z.le_trans; [|exact Hge]. apply Z.pow_le_mono_r; lia.
Qed.

End EncodedSize.

Lemma encoded_size_enough_witness :
  magnitude W32 (BigInt_of_u64 W32 4095)
  < 8 ^ Z.of_nat (encoded_size W32 (fun b => b) (BigInt_of_u64 W32 4095) Octal).
Proof.
  destruct (encoded_size_enough W32 (fun b => b) (BigInt_of_u64 W32 4095)) as (_ & _ & H & _).
  - reflexivity.
  - exact H.
Defined.

(** ** [set_sign] and the integer denoted *)

Section SetSign.

Context (ws : word_size).

(** X17. [set_sign(s)] touches nothing but the sign tag, makes the integer
    denoted the magnitude with sign [s] (zero stays zero), and of two calls
    in a row only the second counts. *)
Theorem set_sign_value (x : BigInt) (s t : Sign) :
  reg (set_sign x s) = reg x
  /\ magnitude ws (set_sign x s) = magnitude ws x
  /\ value ws (set_sign x s)
     = match s with Positive => magnitude ws x | Negative => - magnitude ws x end
  /\ set_sign (set_sign x s) t = set_sign x t.
Proof.
  split; [apply set_sign_reg|]. split; [|split].
  - apply magnitude_ext_limb. intros i. by rewrite set_sign_reg.
  - apply value_set_sign.
  - unfold set_sign at 1 3. rewrite set_sign_is_zero, set_sign_reg. reflexivity.
Qed.

End SetSign.

(** ** [set_bit] and the bit length *)

Section SetBitLength.

Context (ws : word_size).

(** X18. After [set_bit(n)] the bit length is the larger of the old bit
    length and [n + 1]. *)
Theorem bits_set_bit (x : BigInt) (n : nat) :
  wf ws x = true ->
  bits ws (set_bit ws x n) = Nat.max (bits ws x) (n + 1).
Proof.
  intros Hwf. pose proof (set_bit_wf ws x n Hwf) as Hwf'.
  pose proof (magnitude_nonneg ws x Hwf) as H0.
  assert (magnitude ws (set_bit ws x n) = Z.lor (magnitude ws x) (2 ^ Z.of_nat n)) as Hm.
  { apply Z.bits_inj'. intros k Hk. rewrite <- (Z2Nat.id k) by done.
    rewrite <- get_bit_magnitude by done.
    rewrite get_bit_set_bit, Z.lor_spec, Z.pow2_bits_eqb, <- get_bit_magnitude by (done || lia).
    rewrite orb_comm. f_equal.
    destruct (Nat.eqb_spec n (Z.to_nat k)), (Z.eqb_spec (Z.of_nat n) (Z.of_nat (Z.to_nat k)));
      try done; lia. }
  assert (0 < 2 ^ Z.of_nat n) as Hp by (apply Z.pow_pos_nonneg; lia).
  assert (0 < magnitude ws (set_bit ws x n)) as Hpos.
  { rewrite Hm. destruct (Z.eq_dec (Z.lor (magnitude ws x) (2 ^ Z.of_nat n)) 0) as [E|E].
    - apply Z.lor_eq_0_iff in E. lia.
    - assert (0 <= Z.lor (magnitude ws x) (2 ^ Z.of_nat n)) by (apply Z.lor_nonneg; lia). lia. }
  rewrite (bits_log2 ws _ Hwf'), (proj2 (Z.eqb_neq _ 0)) by lia.
  rewrite Hm, Z.log2_lor, Z.log2_pow2 by lia.
  rewrite (bits_log2 ws x Hwf).
  destruct (Z.eqb_spec (magnitude ws x) 0) as [E|E].
  - rewrite E. change (Z.log2 0) with 0. lia.
  - pose proof (Z.log2_nonneg (magnitude ws x)). lia.
Qed.

End SetBitLength.

Lemma bits_set_bit_witness :
  bits W16 (set_bit W16 (BigInt_of_u64 W16 3) 100) = Nat.max (bits W16 (BigInt_of_u64 W16 3)) (100 + 1).
Proof.
  apply (bits_set_bit W16 (BigInt_of_u64 W16 3) 100). reflexivity.
Defined.
